(** * broken-link-checker: the HTML scraper and the page-scan orchestrator

    A shallow embedding of [lib/internal/scrapeHtml.js] (the scraper),
    [lib/public/HtmlChecker.js] (the orchestrator) and the part of
    [lib/public/UrlChecker.js] that the orchestrator drives, followed by
    the properties of the specification that concern them.

    Conventions.
    - A JS string is a [string] holding its UTF-8 encoding.  [trim] strips
      the white space and line terminators of ECMAScript, whatever their
      length in bytes.  [toLowerCase] lowers the letters A to Z; no other
      character lowers to a letter of the words refresh and robots, with
      which the code compares its result.
    - A JS number that counts things is a [Z]: [index - excludedLinks] is a
      subtraction on numbers and is never truncated.
    - A JS object used as a dictionary is a [gmap string _]; an absent key
      is [None] (JS [undefined]).
    - A DOM node is identified by its position in the document: the list of
      child indices leading to it, innermost first.  [parentNode] is the
      tail of that list and [child !== node] is inequality of positions. *)

From stdpp Require Import base strings list gmap pretty.
From Stdlib Require Import ZArith Lia Ascii.

Open Scope Z_scope.
Open Scope string_scope.
Open Scope list_scope.

(** ** Strings *)

Notation "a ==? b" := (String.eqb a b) (at level 70, no associativity).

(** The string of the given bytes. *)
Definition utf8 (bytes : list nat) : string :=
  String.string_of_list_ascii (ascii_of_nat <$> bytes).

(** What [String.prototype.trim] strips, in UTF-8: the white space of
    ECMAScript (TAB, VT, FF, SP, NBSP U+00A0, the space separators U+1680,
    U+2000 to U+200A, U+202F, U+205F and U+3000, and ZWNBSP U+FEFF) and
    its line terminators (LF, CR, U+2028 and U+2029). *)
Definition whiteSpace : list string :=
  (utf8 <$> [[9]; [10]; [11]; [12]; [13]; [32]; [194; 160]; [225; 154; 128]]%nat)
  ++ ((fun k => utf8 [226; 128; 128 + k]%nat) <$> seq 0 11)
  ++ (utf8 <$> [[226; 128; 168]; [226; 128; 169]; [226; 128; 175];
                [226; 129; 159]; [227; 128; 128]; [239; 187; 191]]%nat).

(** [s] is one white space character. *)
Definition isWhiteSpace (s : string) : bool := existsb (String.eqb s) whiteSpace.

(** A white space character is one, two or three bytes long; [trimStart]
    looks that far ahead. *)
Fixpoint trimStart (s : string) : string :=
  match s with
  | EmptyString => s
  | String a r1 =>
      if isWhiteSpace (String a "") then trimStart r1
      else
        match r1 with
        | EmptyString => s
        | String b r2 =>
            if isWhiteSpace (String a (String b "")) then trimStart r2
            else
              match r2 with
              | EmptyString => s
              | String c r3 =>
                  if isWhiteSpace (String a (String b (String c ""))) then trimStart r3
                  else s
              end
        end
  end.

(** From the end: what is left of [s] once the white space at its end is
    gone is the first byte before what is left of the rest, unless that
    makes up a white space character. *)
Fixpoint trimEnd (s : string) : string :=
  match s with
  | EmptyString => EmptyString
  | String c r =>
      let r' := trimEnd r in
      if isWhiteSpace (String c r') then EmptyString else String c r'
  end.

Definition trim (s : string) : string := trimEnd (trimStart s).

Definition lowerChar (c : ascii) : ascii :=
  let n := nat_of_ascii c in
  if ((65 <=? n) && (n <=? 90))%nat then ascii_of_nat (n + 32) else c.

Fixpoint toLowerCase (s : string) : string :=
  match s with
  | EmptyString => EmptyString
  | String c r => String (lowerChar c) (toLowerCase r)
  end.

(** [Array.prototype.join]. *)
Fixpoint join (sep : string) (l : list string) : string :=
  match l with
  | [] => ""
  | [x] => x
  | x :: r => x +:+ sep +:+ join sep r
  end.

(** [s[0] !== c]: the first character of [s] differs from [c] ([s[0]] is
    [undefined] on the empty string, which differs from every character). *)
Definition firstCharIsNot (s : string) (c : ascii) : bool :=
  match s with
  | EmptyString => true
  | String d _ => negb (Ascii.eqb d c)
  end.

(** ** The parsed document *)

(** An entry of [node.attrs]. *)
Record attr := Attr { attr_name : string; attr_value : string }.

(** A node of the parser's tree.  Elements and the document have
    [childNodes]; doctypes, text and comment nodes have none.  [value] is
    the text of a [#text] node.  [locationAttrs] is
    [node.__location.attrs]. *)
#[warnings="-register-all"]
Inductive node : Type := Node {
  nodeName : string;
  attrs : list attr;
  value : string;
  locationAttrs : gmap string (Z * Z);
  childNodes : option (list node) }.

(** [node.attrMap], which the HTML parser wrapper builds from [node.attrs]
    by assigning [map[attr.name] = attr.value] in order: the last entry of
    a name wins. *)
Definition attrMap (n : node) : gmap string string :=
  foldl (fun m a => <[attr_name a := attr_value a]> m) ∅ (attrs n).

(** Position of a node: child indices, innermost first. *)
Definition loc := list nat.

Fixpoint node_at (document : node) (l : loc) : option node :=
  match l with
  | [] => Some document
  | i :: p =>
      match node_at document p with
      | Some parent =>
          match childNodes parent with
          | Some cs => cs !! i
          | None => None
          end
      | None => None
      end
  end.

(** ** Abrupt completion

    A JS computation either completes normally or throws.  The only throws
    the modelled code can raise itself are [TypeError]s from reading a
    property of [undefined] or [null]. *)
Inductive completion (A : Type) : Type :=
  | Normal (a : A)
  | Throw (e : string).
Arguments Normal {A} a.
Arguments Throw {A} e.

#[global] Instance completion_ret : MRet completion := fun _ a => Normal a.

#[global] Instance completion_bind : MBind completion := fun _ _ k c =>
  match c with
  | Normal a => k a
  | Throw e => Throw e
  end.

Definition TypeError {A} : completion A := Throw "TypeError".

(** Reading a property of a value that may be [undefined]/[null]. *)
Definition deref {A} (o : option A) : completion A :=
  match o with
  | Some a => Normal a
  | None => TypeError
  end.

(** [arr.forEach(f)] for a callback that threads a state and may throw. *)
Fixpoint forEach {A St} (f : A -> St -> completion St) (l : list A) (s : St)
  : completion St :=
  match l with
  | [] => Normal s
  | x :: r => s1 ← f x s; forEach f r s1
  end.

(** ** [walk]

    Pre-order traversal.  The callback receives the node (with its
    position) and the state it mutates, and returns [false] to kill the
    walk; [walk] itself returns [false] when it was killed (and [undefined],
    here [true], otherwise).  A throw of the callback leaves the walk. *)
Section Walk.
Context {St : Type}.
Variable callback : loc -> node -> St -> completion (St * bool).

Fixpoint walk (l : loc) (n : node) (s : St) : completion (St * bool) :=
  '(s1, go) ← callback l n s;
  if negb go then mret (s1, false)
  else
    match childNodes n with
    | None => mret (s1, true)
    | Some cs =>
        (fix children (cs : list node) (i : nat) (s : St)
           : completion (St * bool) :=
           match cs with
           | [] => mret (s, true)
           | childNode :: rest =>
               '(s2, go2) ← walk (i :: l) childNode s;
               if negb go2 then mret (s2, false) else children rest (S i) s2
           end) cs 0%nat s1
    end.

(** The [while] loop of [walk] over [node.childNodes], from child [i] on. *)
Fixpoint walk_children (l : loc) (cs : list node) (i : nat) (s : St)
  : completion (St * bool) :=
  match cs with
  | [] => mret (s, true)
  | childNode :: rest =>
      '(s2, go2) ← walk (i :: l) childNode s;
      if negb go2 then mret (s2, false) else walk_children l rest (S i) s2
  end.
End Walk.

(** JS truthiness of a dictionary entry that holds a boolean. *)
Definition truthy (o : option bool) : bool :=
  match o with
  | Some b => b
  | None => false
  end.

(** ** Links *)

(** The fields of a WHATWG [URL] the code reads. *)
Record URL := mkURL { href : string; protocol : string }.

(** A value returned by [maybeExcludeLink] and stored in
    [link.excludedReason]: [false], a reason code, or whatever else a custom
    filter object carries in [excludedReason]. *)
Inductive jsval :=
  | JFalse
  | JString (s : string)
  | JUndefined.

(** Modelled from the spec: the Link record of [lib/internal/Link.js]
    (spec section 3); [Link_create] is [Link.create()], every field [null]
    (the index is a number once the scraper has stamped it). *)
Record Link := mkLink {
  html_attrs : option (gmap string string);
  html_attrName : string;
  html_base : option string;
  html_index : Z;
  html_location : option (Z * Z);
  html_offsetIndex : option Z;
  html_selector : option string;
  html_tag : option string;
  html_tagName : string;
  html_text : option string;
  url_original : option string;
  url_rebased : option URL;
  internal : option bool;
  samePage : option bool;
  excluded : option bool;
  excludedReason : option jsval;
  broken : option bool;
  brokenReason : option string }.

Definition Link_create : Link :=
  {| html_attrs := None; html_attrName := ""; html_base := None;
     html_index := 0; html_location := None; html_offsetIndex := None;
     html_selector := None; html_tag := None; html_tagName := "";
     html_text := None; url_original := None; url_rebased := None;
     internal := None; samePage := None; excluded := None;
     excludedReason := None; broken := None; brokenReason := None |}.

(** ** Collaborators

    What the modelled files import and this development does not embed:
    npm packages, and modules of the repository outside the embedded
    files.  Their behaviour is left open; the properties below hold for
    every behaviour. *)

(** A candidate of [parse-srcset]. *)
Record image := Image { image_url : string; image_descriptor : string }.

(** The accumulated robots directives ([robot-directives]): the user agent
    the collector was made for and the [(name, content)] declarations fed
    to it so far, in order.  What they amount to is the collector's
    business ([robots_is], [robots_oneIs] below). *)
Record RobotDirectives := mkRobots {
  robots_userAgent : string;
  robots_declarations : list (string * string) }.

(** [robots.meta(name, content)]. *)
Definition robots_meta (name content : string) (r : RobotDirectives)
  : RobotDirectives :=
  {| robots_userAgent := robots_userAgent r;
     robots_declarations := robots_declarations r ++ [(name, content)] |}.

Inductive directive := NOFOLLOW | NOINDEX | NOIMAGEINDEX.

(** Credentials, as [transitiveAuth] hands them on. *)
Record Auth := mkAuth { username : string; password : string }.

(** One element-to-attributes table of the [tags] module. *)
Abbreviation tagTable := (gmap string (gmap string bool)).

(** npm packages. *)
Class Packages := {
  (** [http-equiv-refresh]: the [url] of the parsed value, or [null]. *)
  parseMetaRefresh : string -> option string;
  (** [list-to-array], with its separator. *)
  list2Array : string -> string -> list string;
  (** [parse-srcset]. *)
  parseSrcset : string -> list image;
  (** [condense-whitespace]. *)
  condenseWhitespace : string -> string;
  (** [RobotDirectives.isBot]. *)
  isBot : string -> bool;
  (** [robots.is(directive)] and [robots.oneIs(directives)]. *)
  robots_is : RobotDirectives -> directive -> bool;
  robots_oneIs : RobotDirectives -> list directive -> bool;
  (** [linkTypes(rel).nofollow] of [link-types]. *)
  linkTypes_nofollow : string -> bool;
  (** [limited-request-queue]: whether [enqueue] takes the URL it is handed
      ([link.url.rebased], possibly [null]) or answers [undefined]. *)
  queueAccepts : option URL -> bool }.

(** Modules of the repository outside the embedded files. *)
Class Internals := {
  (** [lib/internal/tags]: one table per filter level, by growing coverage. *)
  tags : list tagTable;
  (** The URL algebra behind [Link.resolve]: the raw URL resolved against
      the document's base (when there is one) and the page URL (when there
      is one), [null] when it does not resolve; and the two classifications
      of a resolved URL. *)
  rebase : string -> option string -> option URL -> option URL;
  isInternal : URL -> option URL -> bool;
  isSamePage : URL -> option URL -> bool;
  (** [lib/internal/parseHtml], the promise it returns taken as resolved. *)
  parseHtml : string -> node;
  (** [lib/internal/transitiveAuth]: its [auth] and its [url]. *)
  transitiveAuth : string -> option Auth -> Auth * URL;
  (** [lib/internal/matchUrl]. *)
  matchUrl : string -> list string -> bool }.

(** ** The scraper ([lib/internal/scrapeHtml.js]) *)

(** Modelled from the spec: [Link.resolve] of [lib/internal/Link.js]
    (spec section 4.2).  It fills the URL and the classification of the
    link and leaves the rest; a URL that does not resolve leaves the
    rebased URL and the classification [null]. *)
Definition Link_resolve `{Internals} (link : Link) (url : string)
    (pageUrl : option URL) : Link :=
  let rebased := rebase url (html_base link) pageUrl in
  {| html_attrs := html_attrs link; html_attrName := html_attrName link;
     html_base := html_base link; html_index := html_index link;
     html_location := html_location link;
     html_offsetIndex := html_offsetIndex link;
     html_selector := html_selector link; html_tag := html_tag link;
     html_tagName := html_tagName link; html_text := html_text link;
     url_original := Some url;
     url_rebased := rebased;
     internal := (fun u => isInternal u pageUrl) <$> rebased;
     samePage := (fun u => isSamePage u pageUrl) <$> rebased;
     excluded := excluded link; excludedReason := excludedReason link;
     broken := broken link; brokenReason := brokenReason link |}.

(** The double-quote character. *)
Definition dquote : string := String (ascii_of_nat 34) EmptyString.

(** What [findLinks] extracts from one attribute: nothing, one URL or an
    array of URLs. *)
Inductive extracted :=
  | ENull
  | EString (url : string)
  | EArray (urls : list string).

(** [const maxFilterLevel = tags[tags.length - 1]]. *)
Definition maxFilterLevel `{Internals} : option tagTable := last tags.

(** The [switch (attrName)] of [findLinks]. *)
Definition extract `{Packages} (n : node) (attrName : string) : completion extracted :=
  if attrName ==? "content" then
    match attrMap n !! "http-equiv" with
    | Some he =>
        if toLowerCase he ==? "refresh" then
          v ← deref (attrMap n !! attrName);
          mret (match parseMetaRefresh v with
                | Some u => EString u
                | None => ENull
                end)
        else mret ENull
    | None => mret ENull
    end
  else if attrName ==? "ping" then
    v ← deref (attrMap n !! attrName);
    mret (EArray (list2Array v ","))
  else if attrName ==? "srcset" then
    v ← deref (attrMap n !! attrName);
    mret (EArray (image_url <$> parseSrcset v))
  else
    v ← deref (attrMap n !! attrName);
    mret (EString (trim v)).

Section FindLinks.
Context `{Packages} `{Internals} {St : Type}.
Variable callback : loc -> node -> string -> string -> St -> completion St.

(** What [findLinks] does with an extracted value. *)
Definition findLinks_emit (l : loc) (n : node) (attrName : string)
    (url : extracted) (s : St) : completion St :=
  match url with
  | EArray urls => forEach (fun _url => callback l n attrName _url) urls s
  | EString u => callback l n attrName u s
  | ENull => mret s
  end.

(** The [for] loop over [node.attrs]. *)
Fixpoint findLinks_attrs (l : loc) (n : node) (linkAttrs : gmap string bool)
    (rest : list attr) (s : St) : completion St :=
  match rest with
  | [] => mret s
  | a :: rest' =>
      let attrName := attr_name a in
      if truthy (linkAttrs !! attrName) then
        url ← extract n attrName;
        s1 ← findLinks_emit l n attrName url s;
        findLinks_attrs l n linkAttrs rest' s1
      else findLinks_attrs l n linkAttrs rest' s
  end.

(** The callback [findLinks] hands to [walk], for a given table. *)
Definition findLinks_visit (table : option tagTable) (l : loc) (n : node) (s : St)
  : completion (St * bool) :=
  t ← deref table;
  match t !! nodeName n with
  | Some linkAttrs =>
      s1 ← findLinks_attrs l n linkAttrs (attrs n) s;
      mret (s1, true)
  | None => mret (s, true)
  end.

Definition findLinks (rootLoc : loc) (rootNode : node) (s : St) : completion St :=
  '(s1, _) ← walk (findLinks_visit maxFilterLevel) rootLoc rootNode s;
  mret s1.
End FindLinks.

(** The callback [findPreliminaries] hands to [walk]; its state is
    [result.base] and the collector, which is [robots] itself as fed so
    far ([robots] as passed only tells whether there is one). *)
Definition findPreliminaries_visit `{Packages} (robots : option RobotDirectives)
    (_ : loc) (n : node) (s : option string * option RobotDirectives)
  : completion ((option string * option RobotDirectives) * bool) :=
  let '(base, rb) := s in
  let s1 :=
    if nodeName n ==? "base" then
      match base, attrMap n !! "href" with
      | None, Some h => (Some (trim h), rb)
      | _, _ => (base, rb)
      end
    else if nodeName n ==? "meta" then
      match rb, attrMap n !! "name", attrMap n !! "content" with
      | Some r, Some nm, Some content =>
          let name := toLowerCase (trim nm) in
          if (name ==? "robots") || isBot name
          then (base, Some (robots_meta name content r))
          else (base, rb)
      | _, _, _ => (base, rb)
      end
    else (base, rb) in
  match fst s1, robots with
  | Some _, None => mret (s1, false)
  | _, _ => mret (s1, true)
  end.

(** Returns [result.base], and the collector as the walk left it. *)
Definition findPreliminaries `{Packages} (rootLoc : loc) (rootNode : node)
    (robots : option RobotDirectives)
  : completion (option string * option RobotDirectives) :=
  '(result, _) ← walk (findPreliminaries_visit robots) rootLoc rootNode (None, robots);
  mret result.

(** [findRootNode]: the first child of the document that has
    [childNodes], with its position; [undefined] when there is none. *)
Fixpoint findRootNode_from (rootNodes : list node) (i : nat) : option (loc * node) :=
  match rootNodes with
  | [] => None
  | r :: rest =>
      match childNodes r with
      | Some _ => Some ([i], r)
      | None => findRootNode_from rest (S i)
      end
  end.

Definition findRootNode (document : node) : completion (option (loc * node)) :=
  rootNodes ← deref (childNodes document);
  mret (findRootNode_from rootNodes 0%nat).

(** [getNthIndex]: the loop over the parent's children, up to the node
    itself (the child at position [self]). *)
Fixpoint getNthIndex_loop (parentsChildren : list node) (self i : nat) (count : Z) : Z :=
  match parentsChildren with
  | [] => count
  | child :: rest =>
      if negb (i =? self)%nat then
        getNthIndex_loop rest self (S i)
          (if firstCharIsNot (nodeName child) "#" then count + 1 else count)
      else count
  end.

Definition getNthIndex (document : node) (l : loc) : completion Z :=
  match l with
  | [] => TypeError
  | self :: p =>
      parentNode ← deref (node_at document p);
      parentsChildren ← deref (childNodes parentNode);
      mret (getNthIndex_loop parentsChildren self 0%nat 0 + 1)
  end.

(** [name!=="html" && name!=="body" & name!=="head"]: the bit-and binds
    tighter than [&&] and yields 1 or 0. *)
Definition needsNthChild (name : string) : bool :=
  negb (name ==? "html") &&
  negb (Z.eqb (Z.land (Z.b2z (negb (name ==? "body"))) (Z.b2z (negb (name ==? "head")))) 0).

(** One pass of the [while] loop of [getSelector]: the segment pushed. *)
Definition getSelector_name (document : node) (l : loc) (n : node) : completion string :=
  if needsNthChild (nodeName n)
  then k ← getNthIndex document l;
       mret (nodeName n +:+ ":nth-child(" +:+ pretty k +:+ ")")
  else mret (nodeName n).

(** [getSelector]: the [while] loop, [selector] being built backwards. *)
Fixpoint getSelector_loop (document : node) (l : loc) (selector : list string)
  : completion (list string) :=
  n ← deref (node_at document l);
  if negb (nodeName n ==? "#document") then
    name ← getSelector_name document l n;
    match l with
    | [] => TypeError
    | _ :: p => getSelector_loop document p (selector ++ [name])
    end
  else mret selector.

Definition getSelector (document : node) (l : loc) : completion string :=
  selector ← getSelector_loop document l [];
  mret (join " > " (reverse selector)).

Definition getText_visit (_ : loc) (n : node) (text : string)
  : completion (string * bool) :=
  if nodeName n ==? "#text" then mret (text +:+ value n, true)
  else mret (text, true).

Definition getText `{Packages} (l : loc) (n : node) : completion (option string) :=
  cs ← deref (childNodes n);
  if (0 <? length cs)%nat then
    '(text, _) ← walk getText_visit l n "";
    mret (Some (condenseWhitespace text))
  else mret None.

Definition stringifyNode (n : node) : string :=
  let attrs :=
    foldl (fun result a =>
             result +:+ " " +:+ attr_name a +:+ "=" +:+ dquote +:+ attr_value a +:+ dquote)
          "" (attrs n) in
  "<" +:+ nodeName n +:+ attrs +:+ ">".

(** The callback [scrapeHtml] hands to [findLinks]. *)
Definition scrapeHtml_callback `{Packages} `{Internals} (document : node)
    (base : option string) (pageUrl : option URL) (l : loc) (n : node)
    (attrName url : string) (links : list Link) : completion (list Link) :=
  selector ← getSelector document l;
  text ← getText l n;
  let link :=
    {| html_attrs := Some (attrMap n);
       html_attrName := attrName;
       html_base := base;
       html_index := Z.of_nat (length links);
       html_location := locationAttrs n !! attrName;
       html_offsetIndex := html_offsetIndex Link_create;
       html_selector := Some selector;
       html_tag := Some (stringifyNode n);
       html_tagName := nodeName n;
       html_text := text;
       url_original := url_original Link_create;
       url_rebased := url_rebased Link_create;
       internal := internal Link_create;
       samePage := samePage Link_create;
       excluded := excluded Link_create;
       excludedReason := excludedReason Link_create;
       broken := broken Link_create;
       brokenReason := brokenReason Link_create |} in
  mret (links ++ [Link_resolve link url pageUrl]).

(** [scrapeHtml].  Besides the links (or the throw) it returns the
    collector as the preliminary walk left it: in JS that is the caller's
    own object, mutated in place. *)
Definition scrapeHtml `{Packages} `{Internals} (document : node)
    (pageUrl : option URL) (robots : option RobotDirectives)
  : option RobotDirectives * completion (list Link) :=
  match root ← findRootNode document; deref root with
  | Throw e => (robots, Throw e)
  | Normal (rootLoc, rootNode) =>
      match findPreliminaries rootLoc rootNode robots with
      | Throw e => (robots, Throw e)
      | Normal (base, robots1) =>
          (robots1,
           findLinks (scrapeHtml_callback document base pageUrl) rootLoc rootNode [])
      end
  end.

(** ** The check queue ([lib/public/UrlChecker.js]) *)

(** An entry of the request queue: the URL it was enqueued under and the
    data [{auth, customData, link}] that [UrlChecker.enqueue] attaches. *)
Record QueueItem := mkItem {
  item_id : Z;
  item_url : option URL;
  item_auth : option Auth;
  item_customData : option string;
  item_link : Link }.

(** Modelled from the spec: the request queue of [limited-request-queue]
    (spec section 4.3): the waiting items in enqueue order, the items in
    flight, and the next id. *)
Record RequestQueue := mkQueue {
  queued : list QueueItem;
  inFlight : list QueueItem;
  nextId : Z }.

Definition RequestQueue_new : RequestQueue :=
  {| queued := []; inFlight := []; nextId := 0 |}.

(** [linkQueue.enqueue(url, data)]: the id, or [undefined] with the queue
    as it was when the URL cannot be scheduled. *)
Definition RequestQueue_enqueue `{Packages} (q : RequestQueue) (url : option URL)
    (auth : option Auth) (customData : option string) (link : Link)
  : option Z * RequestQueue :=
  if queueAccepts url then
    (Some (nextId q),
     {| queued := queued q ++
          [ {| item_id := nextId q; item_url := url; item_auth := auth;
               item_customData := customData; item_link := link |} ];
        inFlight := inFlight q;
        nextId := nextId q + 1 |})
  else (None, q).

(** The [UrlChecker] instance, as far as the orchestrator reaches it (its
    cache only concerns the checks themselves). *)
Record UrlChecker := mkUrlChecker { linkQueue : RequestQueue }.

(** [UrlChecker.enqueue(url, customData, auth)]; [url] is a Link
    ([Link.isLink(url)]) or a URL string. *)
Definition UrlChecker_enqueue `{Packages} `{Internals} (u : UrlChecker)
    (url : Link + string) (customData : option string) (auth : option Auth)
  : option Z * UrlChecker :=
  let link :=
    match url with
    | inl link => link
    | inr url => Link_resolve Link_create url None
    end in
  let '(id, q) := RequestQueue_enqueue (linkQueue u) (url_rebased link) auth customData link in
  (id, {| linkQueue := q |}).

Definition numActiveLinks (u : UrlChecker) : Z := Z.of_nat (length (inFlight (linkQueue u))).
Definition numQueuedLinks (u : UrlChecker) : Z := Z.of_nat (length (queued (linkQueue u))).

(** ** The orchestrator ([lib/public/HtmlChecker.js]) *)

(** What [options.customFilter(link)] returns: a value, taken for its
    truthiness, or an object with [excluded] and [excludedReason]. *)
Inductive filterResult :=
  | FilterValue (isTruthy : bool)
  | FilterObject (filter_excluded : bool) (filter_excludedReason : jsval).

(** The parsed options the orchestrator reads. *)
Record Options := mkOptions {
  opt_tags : list tagTable;
  filterLevel : nat;
  excludeExternalLinks : bool;
  excludeInternalLinks : bool;
  excludeLinksToSamePage : bool;
  excludedSchemes : gmap string bool;
  excludedKeywords : list string;
  honorRobotExclusions : bool;
  customFilter : Link -> filterResult;
  userAgent : string }.

(** The fields [reset] initialises. *)
Record ScanFields := mkFields {
  active : bool;
  auth : option Auth;
  baseUrl : option URL;
  excludedLinks : Z;
  linkEnqueued : option Link;
  parsed : bool;
  robots : option RobotDirectives }.

(** What the orchestrator emits. *)
Inductive event :=
  | EvHtml (tree : node) (robots : option RobotDirectives)
  | EvLink (result : Link)
  | EvJunk (link : Link)
  | EvComplete.

(** An emission: the event, and the fields of the instance as its
    listeners find them, which run inside [emit]. *)
Record emission := mkEmission { em_event : event; em_fields : ScanFields }.

(** The instance.  [emitted] is what the [EventEmitter] it extends has
    emitted so far, oldest first. *)
Record HtmlChecker := mkHtmlChecker {
  fields : ScanFields;
  options : Options;
  urlChecker : UrlChecker;
  emitted : list emission }.

Definition with_fields (f : ScanFields) (instance : HtmlChecker) : HtmlChecker :=
  {| fields := f; options := options instance;
     urlChecker := urlChecker instance; emitted := emitted instance |}.

Definition with_urlChecker (u : UrlChecker) (instance : HtmlChecker) : HtmlChecker :=
  {| fields := fields instance; options := options instance;
     urlChecker := u; emitted := emitted instance |}.

(** [instance.emit(event, ...)]. *)
Definition emit (e : event) (instance : HtmlChecker) : HtmlChecker :=
  {| fields := fields instance; options := options instance;
     urlChecker := urlChecker instance;
     emitted := emitted instance ++ [ {| em_event := e; em_fields := fields instance |} ] |}.

Definition reset_fields : ScanFields :=
  {| active := false; auth := None; baseUrl := None; excludedLinks := 0;
     linkEnqueued := None; parsed := false; robots := None |}.

Definition reset (instance : HtmlChecker) : HtmlChecker :=
  with_fields reset_fields instance.

Definition complete (instance : HtmlChecker) : HtmlChecker :=
  emit EvComplete (reset instance).

Definition isRobotAttr (tagName attrName : string) : bool :=
  ((tagName ==? "img") && (attrName ==? "src")) ||
  ((tagName ==? "input") && (attrName ==? "src")) ||
  ((tagName ==? "menuitem") && (attrName ==? "icon")) ||
  ((tagName ==? "video") && (attrName ==? "poster")).

(** [a && b] where evaluating [b] may throw. *)
Definition andThen (a : bool) (b : completion bool) : completion bool :=
  if a then b else mret false.

(** The reason codes of the code; the specification calls them
    unsupported-html-location, external, internal, same-page, scheme,
    robots, keyword, custom and invalid. *)
Definition BLC_HTML := JString "BLC_HTML".
Definition BLC_EXTERNAL := JString "BLC_EXTERNAL".
Definition BLC_INTERNAL := JString "BLC_INTERNAL".
Definition BLC_SAMEPAGE := JString "BLC_SAMEPAGE".
Definition BLC_SCHEME := JString "BLC_SCHEME".
Definition BLC_ROBOTS := JString "BLC_ROBOTS".
Definition BLC_KEYWORD := JString "BLC_KEYWORD".
Definition BLC_CUSTOM := JString "BLC_CUSTOM".

(** [tagGroup===undefined || !tagGroup[attrName]]. *)
Definition unsupportedLocation (tagGroup : option (gmap string bool)) (attrName : string) : bool :=
  match tagGroup with
  | None => true
  | Some g => negb (truthy (g !! attrName))
  end.

Definition maybeExcludeLink `{Packages} `{Internals} (instance : HtmlChecker)
    (link : Link) : completion jsval :=
  let opts := options instance in
  let attrName := html_attrName link in
  let tagName := html_tagName link in
  level ← deref (opt_tags opts !! filterLevel opts);
  let tagGroup := level !! tagName in
  if unsupportedLocation tagGroup attrName then mret BLC_HTML
  else if excludeExternalLinks opts && bool_decide (internal link = Some false)
  then mret BLC_EXTERNAL
  else if excludeInternalLinks opts && truthy (internal link)
  then mret BLC_INTERNAL
  else if excludeLinksToSamePage opts && truthy (samePage link)
  then mret BLC_SAMEPAGE
  else
    rebased ← deref (url_rebased link);
    if truthy (excludedSchemes opts !! protocol rebased) then mret BLC_SCHEME
    else
      blanket ← andThen (honorRobotExclusions opts)
        (r ← deref (robots (fields instance));
         mret (robots_oneIs r [NOFOLLOW; NOINDEX]));
      if blanket : bool then mret BLC_ROBOTS
      else
        noImage ← andThen (honorRobotExclusions opts)
          (r ← deref (robots (fields instance));
           mret (robots_is r NOIMAGEINDEX && isRobotAttr tagName attrName));
        if noImage : bool then mret BLC_ROBOTS
        else if honorRobotExclusions opts &&
                match html_attrs link with
                | Some attrs =>
                    match attrs !! "rel" with
                    | Some rel => linkTypes_nofollow rel
                    | None => false
                    end
                | None => false
                end
        then mret BLC_ROBOTS
        else if matchUrl (href rebased) (excludedKeywords opts) then mret BLC_KEYWORD
        else
          match customFilter opts link with
          | FilterObject excluded excludedReason =>
              mret (if excluded then excludedReason else JFalse)
          | FilterValue filter =>
              mret (if filter then JFalse else BLC_CUSTOM)
          end.

Definition jsval_eqb (a b : jsval) : bool :=
  match a, b with
  | JFalse, JFalse => true
  | JString s, JString t => s ==? t
  | JUndefined, JUndefined => true
  | _, _ => false
  end.

(** The assignments of [maybeEnqueueLink] to the link. *)
Definition link_exclude (offsetIndex : Z) (reason : jsval) (link : Link) : Link :=
  {| html_attrs := html_attrs link; html_attrName := html_attrName link;
     html_base := html_base link; html_index := html_index link;
     html_location := html_location link;
     html_offsetIndex := Some offsetIndex;
     html_selector := html_selector link; html_tag := html_tag link;
     html_tagName := html_tagName link; html_text := html_text link;
     url_original := url_original link; url_rebased := url_rebased link;
     internal := internal link; samePage := samePage link;
     excluded := Some true; excludedReason := Some reason;
     broken := broken link; brokenReason := brokenReason link |}.

Definition link_include (offsetIndex : Z) (link : Link) : Link :=
  {| html_attrs := html_attrs link; html_attrName := html_attrName link;
     html_base := html_base link; html_index := html_index link;
     html_location := html_location link;
     html_offsetIndex := Some offsetIndex;
     html_selector := html_selector link; html_tag := html_tag link;
     html_tagName := html_tagName link; html_text := html_text link;
     url_original := url_original link; url_rebased := url_rebased link;
     internal := internal link; samePage := samePage link;
     excluded := Some false; excludedReason := excludedReason link;
     broken := broken link; brokenReason := brokenReason link |}.

Definition link_break (b : bool) (reason : option string) (link : Link) : Link :=
  {| html_attrs := html_attrs link; html_attrName := html_attrName link;
     html_base := html_base link; html_index := html_index link;
     html_location := html_location link;
     html_offsetIndex := html_offsetIndex link;
     html_selector := html_selector link; html_tag := html_tag link;
     html_tagName := html_tagName link; html_text := html_text link;
     url_original := url_original link; url_rebased := url_rebased link;
     internal := internal link; samePage := samePage link;
     excluded := excluded link; excludedReason := excludedReason link;
     broken := Some b; brokenReason := reason |}.

Definition set_excludedLinks (k : Z) (f : ScanFields) : ScanFields :=
  {| active := active f; auth := auth f; baseUrl := baseUrl f;
     excludedLinks := k; linkEnqueued := linkEnqueued f;
     parsed := parsed f; robots := robots f |}.

Definition set_parsed (b : bool) (f : ScanFields) : ScanFields :=
  {| active := active f; auth := auth f; baseUrl := baseUrl f;
     excludedLinks := excludedLinks f; linkEnqueued := linkEnqueued f;
     parsed := b; robots := robots f |}.

Definition set_robots (r : option RobotDirectives) (f : ScanFields) : ScanFields :=
  {| active := active f; auth := auth f; baseUrl := baseUrl f;
     excludedLinks := excludedLinks f; linkEnqueued := linkEnqueued f;
     parsed := parsed f; robots := r |}.

(** [maybeEnqueueLink].  It returns the link as it leaves it (the same
    object the caller's array holds) and the instance.  A throw comes from
    [maybeExcludeLink], before anything is assigned. *)
Definition maybeEnqueueLink `{Packages} `{Internals} (link : Link)
    (instance : HtmlChecker) : completion (Link * HtmlChecker) :=
  excludedReason ← maybeExcludeLink instance link;
  if negb (jsval_eqb excludedReason JFalse) then
    let k := excludedLinks (fields instance) in
    let link1 := link_exclude k excludedReason link in
    let instance1 := with_fields (set_excludedLinks (k + 1) (fields instance)) instance in
    mret (link1, emit (EvJunk link1) instance1)
  else
    let link1 :=
      link_include (html_index link - excludedLinks (fields instance)) link in
    let enqueued :=
      UrlChecker_enqueue (urlChecker instance) (inl link1) None (auth (fields instance)) in
    let instance1 := with_urlChecker (snd enqueued) instance in
    match fst enqueued with
    | None =>
        let link2 := link_break true (Some "BLC_INVALID") link1 in
        mret (link2, emit (EvLink link2) instance1)
    | Some id => mret (link1, instance1)
    end.

(** [arr.forEach(f)] where [f] mutates the element and a state and may
    throw: the array and the state as the loop leaves them, and how it
    completed.  A throw leaves the loop with what was done so far. *)
Fixpoint forEach_mut {A St} (f : A -> St -> completion (A * St)) (l : list A) (s : St)
  : list A * St * completion unit :=
  match l with
  | [] => ([], s, Normal tt)
  | x :: r =>
      match f x s with
      | Normal (x1, s1) =>
          let '(r1, s2, c) := forEach_mut f r s1 in (x1 :: r1, s2, c)
      | Throw e => (x :: r, s, Throw e)
      end
  end.

(** *** [scan] and its promise chain *)

(** A reaction of the promise chain of [scan] that has not run yet: the
    one awaiting the parsed document, or the one awaiting the links. *)
Inductive pending :=
  | AwaitParse (html : string)
  | AwaitLinks (tree : node) (links : list Link).

(** The instance together with the reactions still to run. *)
Record World := mkWorld {
  checker : HtmlChecker;
  promises : list pending }.

(** The constructor. *)
Definition HtmlChecker_new (opts : Options) : World :=
  {| checker :=
       {| fields := reset_fields; options := opts;
          urlChecker := {| linkQueue := RequestQueue_new |}; emitted := [] |};
     promises := [] |}.

(** The synchronous part of [scan]. *)
Definition scan `{Internals} (html baseUrl : string) (robots : option RobotDirectives)
    (auth : option Auth) (w : World) : bool * World :=
  let this := checker w in
  if active (fields this) then (false, w)
  else
    let robots :=
      match robots with
      | Some r => r
      | None => {| robots_userAgent := userAgent (options this);
                   robots_declarations := [] |}
      end in
    let transitive := transitiveAuth baseUrl auth in
    let f :=
      {| active := true;
         auth := Some (fst transitive);
         baseUrl := Some (snd transitive);
         excludedLinks := excludedLinks (fields this);
         linkEnqueued := linkEnqueued (fields this);
         parsed := parsed (fields this);
         robots := Some robots |} in
    (true, {| checker := with_fields f this;
              promises := promises w ++ [AwaitParse html] |}).

(** The first reaction: [scrapeHtml(document, this.baseUrl, this.robots)].
    The collector is [this.robots] itself, so what the scraper fed it shows
    there.  A throw rejects the chain: nothing further runs. *)
Definition scan_scrape `{Packages} `{Internals} (html : string) (this : HtmlChecker)
  : HtmlChecker * option pending :=
  let document := parseHtml html in
  let scraped := scrapeHtml document (baseUrl (fields this)) (robots (fields this)) in
  let this1 := with_fields (set_robots (fst scraped) (fields this)) this in
  match snd scraped with
  | Normal links => (this1, Some (AwaitLinks document links))
  | Throw _ => (this1, None)
  end.

(** The second reaction. *)
Definition scan_links `{Packages} `{Internals} (tree : node) (links : list Link)
    (this : HtmlChecker) : HtmlChecker :=
  let this1 := emit (EvHtml tree (robots (fields this))) this in
  match forEach_mut maybeEnqueueLink links this1 with
  | (_, this2, Throw _) => this2
  | (_, this2, Normal _) =>
      let this3 := with_fields (set_parsed true (fields this2)) this2 in
      if (numActiveLinks (urlChecker this3) =? 0)%Z && (numQueuedLinks (urlChecker this3) =? 0)%Z
      then complete this3
      else this3
  end.

(** The listeners the constructor puts on the [UrlChecker]. *)
Definition on_link (result : Link) (this : HtmlChecker) : HtmlChecker :=
  emit (EvLink result) this.

Definition on_end (this : HtmlChecker) : HtmlChecker :=
  if parsed (fields this) then complete this else this.

(** *** The queue at work

    Modelled from the spec (section 4.3): an item starts when the queue
    lets it, in enqueue order; when its check is done the [UrlChecker]
    emits link with the result and then tells the queue, which fires end
    when nothing is in flight or waiting any more. *)
Definition queue_start (q : RequestQueue) : RequestQueue :=
  match queued q with
  | [] => q
  | item :: rest =>
      {| queued := rest; inFlight := inFlight q ++ [item]; nextId := nextId q |}
  end.

Definition queue_remove (id : Z) (q : RequestQueue) : RequestQueue :=
  {| queued := queued q;
     inFlight := filter (fun item => item_id item ≠ id) (inFlight q);
     nextId := nextId q |}.

Definition queue_isEmpty (q : RequestQueue) : bool :=
  match inFlight q, queued q with
  | [], [] => true
  | _, _ => false
  end.

(** The check of item [id] is done, with the outcome the checker found. *)
Definition item_done (id : Z) (isBroken : bool) (reason : option string)
    (this : HtmlChecker) : HtmlChecker :=
  match list_find (fun item => item_id item = id) (inFlight (linkQueue (urlChecker this))) with
  | None => this
  | Some (_, item) =>
      let result := link_break isBroken reason (item_link item) in
      let this1 := on_link result this in
      let q := queue_remove id (linkQueue (urlChecker this1)) in
      let this2 := with_urlChecker {| linkQueue := q |} this1 in
      if queue_isEmpty q then on_end this2 else this2
  end.

(** What can happen to an instance, one step at a time. *)
Inductive label :=
  | CallScan (html baseUrl : string) (robots : option RobotDirectives) (auth : option Auth)
  | RunReaction
  | CallEnqueue (url : Link + string) (customData : option string) (auth : option Auth)
  | QueueStart
  | ItemDone (id : Z) (isBroken : bool) (reason : option string).

Definition step `{Packages} `{Internals} (l : label) (w : World) : World :=
  match l with
  | CallScan html baseUrl robots auth => snd (scan html baseUrl robots auth w)
  | RunReaction =>
      match promises w with
      | [] => w
      | AwaitParse html :: rest =>
          let '(this, next) := scan_scrape html (checker w) in
          {| checker := this;
             promises := rest ++ match next with Some p => [p] | None => [] end |}
      | AwaitLinks tree links :: rest =>
          {| checker := scan_links tree links (checker w); promises := rest |}
      end
  | CallEnqueue url customData auth =>
      let this := checker w in
      {| checker :=
           with_urlChecker (snd (UrlChecker_enqueue (urlChecker this) url customData auth)) this;
         promises := promises w |}
  | QueueStart =>
      let this := checker w in
      {| checker :=
           with_urlChecker {| linkQueue := queue_start (linkQueue (urlChecker this)) |} this;
         promises := promises w |}
  | ItemDone id isBroken reason =>
      {| checker := item_done id isBroken reason (checker w);
         promises := promises w |}
  end.

Definition run `{Packages} `{Internals} (ls : list label) (w : World) : World :=
  foldl (fun w l => step l w) w ls.

(** * Notions the properties are stated with

    The rules, counts and shapes the specification speaks of, its
    statements where the code departs from them, and what holds of an
    instance throughout a run. *)

(** The ten exclusion rules of the specification, in its order: what each
    one tests on a link and the reason it gives.  Rule 10 gives the reason
    the custom filter states when that returns an object. *)
Definition exclusionRules `{Packages} `{Internals} (instance : HtmlChecker)
    (link : Link) : list (completion bool * jsval) :=
  let opts := options instance in
  let honor := honorRobotExclusions opts in
  [ (level ← deref (opt_tags opts !! filterLevel opts);
     mret (unsupportedLocation (level !! html_tagName link) (html_attrName link)),
     BLC_HTML);
    (mret (excludeExternalLinks opts && bool_decide (internal link = Some false)),
     BLC_EXTERNAL);
    (mret (excludeInternalLinks opts && truthy (internal link)), BLC_INTERNAL);
    (mret (excludeLinksToSamePage opts && truthy (samePage link)), BLC_SAMEPAGE);
    (rebased ← deref (url_rebased link);
     mret (truthy (excludedSchemes opts !! protocol rebased)),
     BLC_SCHEME);
    (andThen honor (r ← deref (robots (fields instance));
                    mret (robots_oneIs r [NOFOLLOW; NOINDEX])),
     BLC_ROBOTS);
    (andThen honor (r ← deref (robots (fields instance));
                    mret (robots_is r NOIMAGEINDEX &&
                          isRobotAttr (html_tagName link) (html_attrName link))),
     BLC_ROBOTS);
    (mret (honor && default false (linkTypes_nofollow <$> (html_attrs link ≫= (.!! "rel")))),
     BLC_ROBOTS);
    (rebased ← deref (url_rebased link);
     mret (matchUrl (href rebased) (excludedKeywords opts)),
     BLC_KEYWORD);
    (mret (match customFilter opts link with
           | FilterObject excluded _ => excluded
           | FilterValue filter => negb filter
           end),
     match customFilter opts link with
     | FilterObject _ excludedReason => excludedReason
     | FilterValue _ => BLC_CUSTOM
     end) ].

(** First match wins: the reason of the first rule whose test holds, and
    [false] when none does.  A test that throws ends the evaluation. *)
Fixpoint firstMatch (rules : list (completion bool * jsval)) : completion jsval :=
  match rules with
  | [] => mret JFalse
  | (test, reason) :: rest =>
      matches ← test;
      if matches : bool then mret reason else firstMatch rest
  end.

(** How often an instance has emitted complete, and how often html. *)
Definition isComplete (e : event) : bool :=
  match e with
  | EvComplete => true
  | _ => false
  end.

Definition isHtml (e : event) : bool :=
  match e with
  | EvHtml _ _ => true
  | _ => false
  end.

Definition count_events (p : event -> bool) (this : HtmlChecker) : nat :=
  length (filter (fun e => p (em_event e) = true) (emitted this)).

Definition completions (this : HtmlChecker) : nat := count_events isComplete this.
Definition htmls (this : HtmlChecker) : nat := count_events isHtml this.

(** What holds of an instance and its pending reactions at any moment:
    the parsed flag is only up while a scan is active, nothing is pending
    and the html of that scan is the one emission not yet answered by a
    complete; while a reaction is pending the scan is active and every html
    so far has been answered; and so it has when the instance is idle. *)
Definition consistent (w : World) : Prop :=
  let f := fields (checker w) in
  (parsed f = true ->
   active f = true /\ promises w = [] /\ htmls (checker w) = S (completions (checker w))) /\
  (promises w <> [] ->
   active f = true /\ length (promises w) = 1%nat /\
   htmls (checker w) = completions (checker w)) /\
  (active f = false -> htmls (checker w) = completions (checker w)) /\
  (completions (checker w) <= htmls (checker w) <= S (completions (checker w)))%nat.

(** The exclusion counter is at zero when the instance is idle and while a
    reaction is pending. *)
Definition counter_at_rest (w : World) : Prop :=
  active (fields (checker w)) = false \/ promises w <> [] ->
  excludedLinks (fields (checker w)) = 0.

(** The order the specification gives to completion: complete is emitted
    first, so that its listeners still find the fields of the scan, and
    the fields are reset afterwards. *)
Definition complete_emits_before_reset (this : HtmlChecker) : Prop :=
  exists before,
    emitted (complete this) =
      before ++ [ {| em_event := EvComplete; em_fields := fields this |} ].

(** The links of a list that the filter pass left included, and those it
    excluded. *)
Definition includedLinks (links : list Link) : list Link :=
  filter (fun link => excluded link = Some false) links.

Definition excludedCount (links : list Link) : Z :=
  Z.of_nat (length (filter (fun link => excluded link = Some true) links)).

(** The candidates of a document: what [findLinks] hands to its callback,
    in order (position of the element, attribute name, URL), for a given
    table. *)
Definition record_candidate (l : loc) (_ : node) (attrName url : string)
    (found : list (loc * string * string)) : completion (list (loc * string * string)) :=
  mret (found ++ [(l, attrName, url)]).

Definition candidates_in `{Packages} (table : option tagTable) (rootLoc : loc)
    (rootNode : node) : completion (list (loc * string * string)) :=
  '(found, _) ← walk (findLinks_visit record_candidate table) rootLoc rootNode [];
  mret found.

Definition candidates `{Packages} `{Internals} (rootLoc : loc) (rootNode : node)
  : completion (list (loc * string * string)) :=
  findLinks record_candidate rootLoc rootNode [].

(** The scraper as the specification has it: the table is the one of the
    configured filter level. *)
Definition scraper_follows_filter_level `{Packages} `{Internals} (filterLevel : nat)
    (rootLoc : loc) (rootNode : node) : Prop :=
  candidates rootLoc rootNode = candidates_in (tags !! filterLevel) rootLoc rootNode.

(** The specification on values that are empty once trimmed: no candidate
    of an attribute other than content, ping and srcset has an empty URL. *)
Definition empty_values_are_skipped `{Packages} `{Internals} (rootLoc : loc)
    (rootNode : node) : Prop :=
  forall found l attrName url,
    candidates rootLoc rootNode = Normal found ->
    (l, attrName, url) ∈ found ->
    attrName <> "content" -> attrName <> "ping" -> attrName <> "srcset" ->
    url <> "".

(** White space all through, in front, and at the end. *)
Inductive allWhiteSpace : string -> Prop :=
  | allWhiteSpace_nil : allWhiteSpace ""
  | allWhiteSpace_cons w s :
      isWhiteSpace w = true -> allWhiteSpace s -> allWhiteSpace (w +:+ s).

Definition startsWithWhiteSpace (s : string) : Prop :=
  exists w rest, isWhiteSpace w = true /\ s = w +:+ rest.

Definition endsWithWhiteSpace (s : string) : Prop :=
  exists front w, isWhiteSpace w = true /\ s = front +:+ w.

(** The length in bytes of the UTF-8 character that starts with [a]
    (up to three bytes). *)
Definition leadLength (a : ascii) : nat :=
  let n := nat_of_ascii a in
  if (n <? 128)%nat then 1%nat else if (n <? 224)%nat then 2%nat else 3%nat.

(** The nodes of a subtree in document order. *)
Fixpoint preorder (n : node) : list node :=
  n :: match childNodes n with
       | Some cs => flat_map preorder cs
       | None => []
       end.

(** The base URL as the specification has it: the href of the first base
    element, in document order, whose href attribute is not empty. *)
Definition hasNonEmptyHref (n : node) : bool :=
  match attrMap n !! "href" with
  | Some h => negb (h ==? "")
  | None => false
  end.

Definition firstBaseHref_spec (nodes : list node) : option string :=
  n ← find (fun n => (nodeName n ==? "base") && hasNonEmptyHref n) nodes;
  attrMap n !! "href".

Definition base_is_first_nonempty_href `{Packages} (rootLoc : loc) (rootNode : node)
    (robots : option RobotDirectives) : Prop :=
  exists robots',
    findPreliminaries rootLoc rootNode robots =
      Normal (firstBaseHref_spec (preorder rootNode), robots').

(** The base URL as the code has it: the trimmed href of the first base
    element, in document order, that has an href attribute. *)
Definition hasHref (n : node) : bool :=
  match attrMap n !! "href" with
  | Some _ => true
  | None => false
  end.

Definition firstBaseHref (nodes : list node) : option string :=
  n ← find (fun n => (nodeName n ==? "base") && hasHref n) nodes;
  trim <$> attrMap n !! "href".

(** The selector as the specification has it.  An element is a node that
    is neither text nor comment; the segment of an element is its name,
    followed, unless it is html, head or body, by the nth-child suffix that
    counts the elements before it among its siblings, plus one; the
    segments run from the top down, joined by [" > "]. *)
Definition isTextOrComment (n : node) : bool :=
  (nodeName n ==? "#text") || (nodeName n ==? "#comment").

Definition precedingElements (siblings : list node) (i : nat) : Z :=
  Z.of_nat (length (filter (fun c => isTextOrComment c = false) (take i siblings))).

Definition segment_spec (siblings : list node) (i : nat) (n : node) : string :=
  if (nodeName n ==? "html") || (nodeName n ==? "head") || (nodeName n ==? "body")
  then nodeName n
  else nodeName n +:+ ":nth-child(" +:+ pretty (precedingElements siblings i + 1) +:+ ")".

Fixpoint segments_spec (document : node) (l : loc) : list string :=
  match l with
  | [] => []
  | i :: p =>
      segments_spec document p ++
      match node_at document p ≫= childNodes with
      | Some siblings =>
          match siblings !! i with
          | Some n => [segment_spec siblings i n]
          | None => []
          end
      | None => []
      end
  end.

Definition selector_spec (document : node) (l : loc) : string :=
  join " > " (segments_spec document l).

(** A position that leads from the document through elements only, the
    siblings of those that take an nth-child suffix being elements, text
    or comments. *)
Definition isElementName (n : node) : bool := firstCharIsNot (nodeName n) "#".

Fixpoint elementPath (document : node) (l : loc) : bool :=
  match l with
  | [] => true
  | i :: p =>
      elementPath document p &&
      match node_at document p ≫= childNodes with
      | Some siblings =>
          match siblings !! i with
          | Some n =>
              isElementName n &&
              (negb (needsNthChild (nodeName n)) ||
               forallb (fun c => isElementName c || isTextOrComment c) siblings)
          | None => false
          end
      | None => false
      end
  end.

(** What [maybeEnqueueLink] leaves alone. *)
Definition same_scan (this this' : HtmlChecker) : Prop :=
  active (fields this') = active (fields this) /\
  parsed (fields this') = parsed (fields this) /\
  completions this' = completions this /\
  htmls this' = htmls this.

(** What one node does to [result.base]. *)
Definition base_step (base : option string) (n : node) : option string :=
  match base with
  | Some _ => base
  | None => if nodeName n ==? "base" then trim <$> attrMap n !! "href" else None
  end.

(** The nodes of a subtree in document order, each with its position. *)
Fixpoint preorder_at (l : loc) (n : node) : list (loc * node) :=
  (l, n) ::
  match childNodes n with
  | Some cs =>
      (fix children (cs : list node) (i : nat) : list (loc * node) :=
         match cs with
         | [] => []
         | c :: rest => preorder_at (i :: l) c ++ children rest (S i)
         end) cs 0%nat
  | None => []
  end.

Fixpoint preorder_children (l : loc) (cs : list node) (i : nat) : list (loc * node) :=
  match cs with
  | [] => []
  | c :: rest => preorder_at (i :: l) c ++ preorder_children l rest (S i)
  end.

(** What a callback of [walk] does to the state at one node. *)
Definition visit_state {St : Type}
    (callback : loc -> node -> St -> completion (St * bool))
    (x : loc * node) (s : St) : completion St :=
  '(s1, _) ← callback (fst x) (snd x) s;
  mret s1.

(** A callback that notes the nodes it is given and kills the walk at the
    ones [stop] holds of, and the part of a list up to the first such
    node, that one included. *)
Definition note_until (stop : node -> bool) (_ : loc) (n : node) (seen : list node)
  : completion (list node * bool) :=
  mret (seen ++ [n], negb (stop n)).

Fixpoint upTo (stop : node -> bool) (nodes : list node) : list node :=
  match nodes with
  | [] => []
  | n :: rest => n :: if stop n then [] else upTo stop rest
  end.

(** The text of a list of nodes: the values of its text nodes, one after
    the other. *)
Definition textOf (nodes : list node) : string :=
  foldl (fun text n => if nodeName n ==? "#text" then text +:+ value n else text)
        "" nodes.

(** The candidates of a document, written out: node by node in document
    order; for a node the table has, attribute by attribute in the order
    of [node.attrs]; for an attribute the table marks, the URLs the
    [switch] of [findLinks] extracts from it, in their order. *)
Definition extracted_urls (e : extracted) : list string :=
  match e with
  | ENull => []
  | EString url => [url]
  | EArray urls => urls
  end.

Definition attr_urls `{Packages} (n : node) (attrName : string) : list string :=
  match extract n attrName with
  | Normal e => extracted_urls e
  | Throw _ => []
  end.

Definition node_candidates `{Packages} (table : tagTable) (n : node)
  : list (string * string) :=
  match table !! nodeName n with
  | Some linkAttrs =>
      flat_map (fun a =>
                  if truthy (linkAttrs !! attr_name a)
                  then (fun url => (attr_name a, url)) <$> attr_urls n (attr_name a)
                  else [])
               (attrs n)
  | None => []
  end.

Definition document_candidates `{Packages} (table : tagTable) (l : loc) (n : node)
  : list (loc * node * string * string) :=
  flat_map (fun x => (fun c => (fst x, snd x, fst c, snd c)) <$> node_candidates table (snd x))
           (preorder_at l n).

(** A call of the callback of [findLinks] on a candidate. *)
Definition call {St : Type}
    (callback : loc -> node -> string -> string -> St -> completion St)
    (c : loc * node * string * string) (s : St) : completion St :=
  callback (fst (fst (fst c))) (snd (fst (fst c))) (snd (fst c)) (snd c) s.

(** What a node declares to the robots collector. *)
Definition robots_declares `{Packages} (n : node) : list (string * string) :=
  if nodeName n ==? "meta" then
    match attrMap n !! "name", attrMap n !! "content" with
    | Some nm, Some content =>
        let name := toLowerCase (trim nm) in
        if (name ==? "robots") || isBot name then [(name, content)] else []
    | _, _ => []
    end
  else [].

Definition robots_fed (declarations : list (string * string)) (r : RobotDirectives)
  : RobotDirectives :=
  {| robots_userAgent := robots_userAgent r;
     robots_declarations := robots_declarations r ++ declarations |}.

(** What of a link the scraper reads off the element and the attribute. *)
Definition link_source (link : Link)
  : string * string * option string * option string * option string :=
  (html_tagName link, html_attrName link, url_original link, html_base link,
   html_tag link).

(** How often an instance has emitted junk. *)
Definition isJunk (e : event) : bool :=
  match e with
  | EvJunk _ => true
  | _ => false
  end.

Definition junks (this : HtmlChecker) : nat := count_events isJunk this.

(** How often an instance has emitted link. *)
Definition isLinkEvent (e : event) : bool :=
  match e with
  | EvLink _ => true
  | _ => false
  end.

Definition linkEvents (this : HtmlChecker) : nat := count_events isLinkEvent this.

(** The events an instance has emitted, oldest first. *)
Definition events (this : HtmlChecker) : list event := em_event <$> emitted this.

(** A scan that no reaction and no drain of the queue will end: it is
    active, its links are not marked filtered, and nothing is pending. *)
Definition stuck (w : World) : Prop :=
  active (fields (checker w)) = true /\
  parsed (fields (checker w)) = false /\
  promises w = [].

(** * A concrete setting

    Simple stand-ins for the collaborators and a small page, on which the
    definitions above can be run. *)

Definition directive_name (d : directive) : string :=
  match d with
  | NOFOLLOW => "nofollow"
  | NOINDEX => "noindex"
  | NOIMAGEINDEX => "noimageindex"
  end.

Definition demo_robots_is (r : RobotDirectives) (d : directive) : bool :=
  existsb (fun decl => snd decl ==? directive_name d) (robots_declarations r).

#[local] Instance demo_packages : Packages := {|
  parseMetaRefresh := fun v => if v ==? "" then None else Some v;
  list2Array := fun v _ => [v];
  parseSrcset := fun v => [ {| image_url := v; image_descriptor := "" |} ];
  condenseWhitespace := trim;
  isBot := fun name => name ==? "googlebot";
  robots_is := demo_robots_is;
  robots_oneIs := fun r ds => existsb (demo_robots_is r) ds;
  linkTypes_nofollow := fun rel => rel ==? "nofollow";
  queueAccepts := fun url =>
    match url with
    | Some u => protocol u ==? "http:"
    | None => false
    end |}.

Definition demo_level0 : tagTable := {[ "a" := {[ "href" := true ]} ]}.
Definition demo_level1 : tagTable :=
  {[ "a" := {[ "href" := true ]}; "img" := {[ "src" := true ]} ]}.

Definition el (name : string) (attrs : list attr) (children : list node) : node :=
  Node name attrs "" ∅ (Some children).
Definition text (v : string) : node := Node "#text" [] v ∅ None.
Definition doctype : node := Node "#documentType" [] "" ∅ None.

(** A page with a doctype; in its head a base element with an empty href
    and then one with the href /x/; in its body the text hi, an anchor
    whose href is two spaces, and a div with an image and a mailto
    anchor. *)
Definition demo_document : node :=
  Node "#document" [] "" ∅ (Some [
    doctype;
    el "html" [] [
      el "head" [] [
        el "base" [Attr "href" ""] [];
        el "base" [Attr "href" "/x/"] [] ];
      el "body" [] [
        text "hi";
        el "a" [Attr "href" "  "] [text "here"];
        el "div" [] [
          el "img" [Attr "src" "a.png"] [];
          el "a" [Attr "href" "mailto:me"] [text "me"] ] ] ] ]).

#[local] Instance demo_internals : Internals := {|
  tags := [demo_level0; demo_level1];
  rebase := fun url _ _ =>
    if url ==? "http://" then None
    else Some {| href := url;
                 protocol := if String.prefix "mailto:" url then "mailto:" else "http:" |};
  isInternal := fun u _ => negb (String.prefix "http://other/" (href u));
  isSamePage := fun _ _ => false;
  parseHtml := fun _ => demo_document;
  transitiveAuth := fun url auth =>
    (default {| username := ""; password := "" |} auth, {| href := url; protocol := "http:" |});
  matchUrl := fun href keywords => existsb (fun k => href ==? k) keywords |}.

Definition demo_options : Options :=
  {| opt_tags := [demo_level0; demo_level1];
     filterLevel := 0;
     excludeExternalLinks := false;
     excludeInternalLinks := false;
     excludeLinksToSamePage := false;
     excludedSchemes := ∅;
     excludedKeywords := [];
     honorRobotExclusions := false;
     customFilter := fun _ => FilterValue true;
     userAgent := "blc" |}.

(** The scan of the page in the concrete setting: accepted and scraped;
    then its links filtered, one of them waiting in the queue; then that
    one checked, which completes the scan. *)
Definition demo_scan : label := CallScan "<html>" "http://blc/" None None.

Definition demo_scraped : World :=
  run [demo_scan; RunReaction] (HtmlChecker_new demo_options).

Definition demo_draining : World := step RunReaction demo_scraped.

Definition demo_trace : list label :=
  [demo_scan; RunReaction; RunReaction; QueueStart; ItemDone 0 false None].

Definition demo_done : World := run demo_trace (HtmlChecker_new demo_options).

(** The links the scraper finds in the page, and the last of them. *)
Definition demo_links : list Link :=
  match promises demo_scraped with
  | [AwaitLinks _ links] => links
  | _ => []
  end.

Definition demo_mailto : Link := default Link_create (demo_links !! 2%nat).

(** An instance that excludes internal links and the mailto scheme. *)
Definition demo_strict : HtmlChecker :=
  {| fields := fields (checker demo_scraped);
     options :=
       {| opt_tags := [demo_level0; demo_level1];
          filterLevel := 0;
          excludeExternalLinks := false;
          excludeInternalLinks := true;
          excludeLinksToSamePage := false;
          excludedSchemes := {[ "mailto:" := true ]};
          excludedKeywords := [];
          honorRobotExclusions := false;
          customFilter := fun _ => FilterValue true;
          userAgent := "blc" |};
     urlChecker := urlChecker (checker demo_scraped);
     emitted := [] |}.

(** A drain in the middle of a scan: after the scan is accepted, and
    before its document is scraped, a URL enqueued on the [UrlChecker]
    directly is checked, which empties the queue. *)
Definition demo_early_drain : World :=
  run [demo_scan; CallEnqueue (inr "http://blc/x") None None; QueueStart;
       ItemDone 0 false None]
      (HtmlChecker_new demo_options).

(** The filter pass over the links of the page in the concrete setting. *)
Definition demo_filtered : list Link * HtmlChecker * completion unit :=
  forEach_mut maybeEnqueueLink demo_links
    (emit (EvHtml demo_document (robots (fields (checker demo_scraped))))
       (checker demo_scraped)).

(** The [<html>] element of the page of the concrete setting. *)
Definition demo_root : node :=
  default doctype (node_at demo_document [1%nat]).

(** A tree that is not under a document: a div with one anchor. *)
Definition demo_fragment : node := el "div" [] [el "a" [Attr "href" "x"] []].

(** A document that holds a doctype only. *)
Definition demo_empty_document : node := Node "#document" [] "" ∅ (Some [doctype]).

(** A page with three robots declarations, the second of which is for no
    robot the collector knows. *)
Definition demo_robots_page : node :=
  el "html" [] [
    el "head" [] [
      el "meta" [Attr "name" " ROBOTS "; Attr "content" "noindex"] [];
      el "meta" [Attr "name" "viewport"; Attr "content" "width=1"] [];
      el "base" [Attr "href" " /x/ "] [] ];
    el "body" [] [
      el "meta" [Attr "name" "googlebot"; Attr "content" "nofollow"] [] ] ].

(** The mailto link of the page, had its URL been one that does not
    resolve; and the image link of the page. *)
Definition demo_unresolved : Link := Link_resolve demo_mailto "http://" None.

Definition demo_image : Link := default Link_create (demo_links !! 1%nat).

(** The first link of the page, which the queue takes. *)
Definition demo_anchor : Link := default Link_create (demo_links !! 0%nat).

(** The scan of the page with the check of its one link in flight. *)
Definition demo_checking : World :=
  run [demo_scan; RunReaction; RunReaction; QueueStart] (HtmlChecker_new demo_options).

(** Options whose filter level has no table. *)
Definition demo_no_level : Options :=
  {| opt_tags := [demo_level0; demo_level1];
     filterLevel := 5;
     excludeExternalLinks := false;
     excludeInternalLinks := false;
     excludeLinksToSamePage := false;
     excludedSchemes := ∅;
     excludedKeywords := [];
     honorRobotExclusions := false;
     customFilter := fun _ => FilterValue true;
     userAgent := "blc" |}.

(** Collaborators whose parser gives the document that holds a doctype
    only, whatever the HTML. *)
Definition demo_internals_empty : Internals := {|
  tags := [demo_level0; demo_level1];
  rebase := fun url _ _ => Some {| href := url; protocol := "http:" |};
  isInternal := fun _ _ => true;
  isSamePage := fun _ _ => false;
  parseHtml := fun _ => demo_empty_document;
  transitiveAuth := fun url auth =>
    (default {| username := ""; password := "" |} auth, {| href := url; protocol := "http:" |});
  matchUrl := fun _ _ => false |}.

(** A space followed by a no-break space (U+00A0). *)
Definition demo_blank : string := " " +:+ utf8 [194; 160]%nat.

(** A page with two anchors, the first of which has a URL that does not
    resolve; collaborators whose parser gives that page; the scan of it,
    scraped; its links; the filter pass over them; and the scan after the
    reaction that runs the pass. *)
Definition demo_invalid_page : node :=
  Node "#document" [] "" ∅ (Some [
    doctype;
    el "html" [] [
      el "body" [] [
        el "a" [Attr "href" "http://"] [text "bad"];
        el "a" [Attr "href" "ok.html"] [text "ok"] ] ] ]).

Definition demo_internals_invalid : Internals := {|
  tags := [demo_level0; demo_level1];
  rebase := fun url _ _ =>
    if url ==? "http://" then None else Some {| href := url; protocol := "http:" |};
  isInternal := fun _ _ => true;
  isSamePage := fun _ _ => false;
  parseHtml := fun _ => demo_invalid_page;
  transitiveAuth := fun url auth =>
    (default {| username := ""; password := "" |} auth, {| href := url; protocol := "http:" |});
  matchUrl := fun _ _ => false |}.

Definition demo_invalid_scraped : World :=
  @run demo_packages demo_internals_invalid [demo_scan; RunReaction]
    (HtmlChecker_new demo_options).

Definition demo_invalid_links : list Link :=
  match promises demo_invalid_scraped with
  | [AwaitLinks _ links] => links
  | _ => []
  end.

Definition demo_invalid_pass : list Link * HtmlChecker * completion unit :=
  forEach_mut (@maybeEnqueueLink demo_packages demo_internals_invalid) demo_invalid_links
    (emit (EvHtml demo_invalid_page (robots (fields (checker demo_invalid_scraped))))
       (checker demo_invalid_scraped)).

Definition demo_invalid_filtered : World :=
  @step demo_packages demo_internals_invalid RunReaction demo_invalid_scraped.

(** * Properties *)

(** ** Walks *)

(** Induction on a node with its children. *)
Section NodeInduction.
Variable P : node -> Prop.
Hypothesis step_node : forall name attrs value location children,
  match children with
  | Some cs => Forall P cs
  | None => True
  end ->
  P (Node name attrs value location children).

Fixpoint node_induction (n : node) : P n :=
  match n with
  | Node name attrs value location children =>
      step_node name attrs value location children
        match children with
        | Some cs =>
            (fix all (cs : list node) : Forall P cs :=
               match cs with
               | [] => List.Forall_nil P
               | c :: rest => List.Forall_cons P c rest (node_induction c) (all rest)
               end) cs
        | None => I
        end
  end.
End NodeInduction.

Lemma walk_unfold {St : Type} (callback : loc -> node -> St -> completion (St * bool))
    l n s :
  walk callback l n s =
    '(s1, go) ← callback l n s;
    if negb go then mret (s1, false)
    else
      match childNodes n with
      | None => mret (s1, true)
      | Some cs => walk_children callback l cs 0 s1
      end.
Proof.
  destruct n as [name attrs value location children]. simpl.
  destruct (callback l _ s) as [[s1 go]|e]; simpl; [|reflexivity].
  destruct (negb go); [reflexivity|].
  destruct children as [cs|]; [|reflexivity].
  generalize 0%nat. revert s1.
  induction cs as [|c rest IH]; intros s1 i; simpl; [reflexivity|].
  destruct (walk callback (i :: l) c s1) as [[s2 go2]|e]; simpl; [|reflexivity].
  destruct (negb go2); [reflexivity|]. apply IH.
Qed.

(** What the callback of a walk keeps, the walk keeps. *)
Lemma walk_keeps {St : Type} (P : St -> Prop)
    (callback : loc -> node -> St -> completion (St * bool)) :
  (forall l n s s' go, P s -> callback l n s = Normal (s', go) -> P s') ->
  forall n l s s' go, P s -> walk callback l n s = Normal (s', go) -> P s'.
Proof.
  intros Hcallback.
  induction n as [name attrs value location children Hchildren] using node_induction.
  intros l s s' go Hs. rewrite walk_unfold.
  destruct (callback l _ s) as [[s1 go1]|e] eqn:Hvisit; simpl; [|discriminate].
  pose proof (Hcallback _ _ _ _ _ Hs Hvisit) as Hs1.
  destruct go1; simpl; [|intros [= <- _]; exact Hs1].
  destruct children as [cs|]; [|intros [= <- _]; exact Hs1].
  clear Hvisit Hs. revert s1 Hs1. generalize 0%nat.
  induction Hchildren as [|c rest Hc _ IH]; intros i s1 Hs1; simpl.
  - intros [= <- _]. exact Hs1.
  - destruct (walk callback (i :: l) c s1) as [[s2 go2]|e] eqn:Hwalk; simpl; [|discriminate].
    pose proof (Hc _ _ _ _ Hs1 Hwalk) as Hs2.
    destruct go2; simpl; [apply IH; exact Hs2 | intros [= <- _]; exact Hs2].
Qed.

Lemma forEach_keeps {A St : Type} (P : St -> Prop) (f : A -> St -> completion St) l :
  (forall x s s', P s -> f x s = Normal s' -> P s') ->
  forall s s', P s -> forEach f l s = Normal s' -> P s'.
Proof.
  intros Hf. induction l as [|x r IH]; intros s s' Hs; simpl.
  - intros [= <-]. exact Hs.
  - destruct (f x s) as [s1|e] eqn:Hx; simpl; [|discriminate].
    apply IH. exact (Hf _ _ _ Hs Hx).
Qed.

(** ** The scraper: tables and values *)

Lemma append_nil s : "" +:+ s = s.
Proof. reflexivity. Qed.

Lemma append_cons c a b : String c a +:+ b = String c (a +:+ b).
Proof. reflexivity. Qed.

Lemma append_assoc a b c : (a +:+ b) +:+ c = a +:+ (b +:+ c).
Proof.
  induction a as [|x a IH]; [reflexivity|].
  rewrite !append_cons, IH. reflexivity.
Qed.

Lemma length_append a b :
  String.length (a +:+ b) = (String.length a + String.length b)%nat.
Proof.
  induction a as [|x a IH]; [reflexivity|].
  rewrite append_cons. simpl. rewrite IH. reflexivity.
Qed.

(** A white space character has the length its first byte announces. *)
Lemma isWhiteSpace_lead w :
  isWhiteSpace w = true ->
  exists a r, w = String a r /\ String.length w = leadLength a.
Proof.
  unfold isWhiteSpace. intros Hw. apply existsb_exists in Hw as (p & Hin & Heq).
  apply String.eqb_eq in Heq. subst p.
  assert (Hall : forallb (fun p => match p with
                                   | String a _ => (String.length p =? leadLength a)%nat
                                   | EmptyString => false
                                   end) whiteSpace = true)
    by (vm_compute; reflexivity).
  rewrite forallb_forall in Hall. specialize (Hall w Hin).
  destruct w as [|a r]; [discriminate|]. exists a, r. split; [reflexivity|].
  apply Nat.eqb_eq, Hall.
Qed.

Lemma isWhiteSpace_shape w :
  isWhiteSpace w = true ->
  (exists a, w = String a "" /\ leadLength a = 1%nat) \/
  (exists a b, w = String a (String b "") /\ leadLength a = 2%nat) \/
  (exists a b c, w = String a (String b (String c "")) /\ leadLength a = 3%nat).
Proof.
  intros Hw. destruct (isWhiteSpace_lead w Hw) as (a & r & -> & Hlen).
  assert (Hle : (leadLength a <= 3)%nat)
    by (unfold leadLength; repeat destruct (_ <? _)%nat; lia).
  destruct r as [|b [|c [|d r]]]; simpl in Hlen.
  - left. exists a. split; [reflexivity | congruence].
  - right. left. exists a, b. split; [reflexivity | congruence].
  - right. right. exists a, b, c. split; [reflexivity | congruence].
  - lia.
Qed.

(** No white space character is the beginning of another. *)
Lemma isWhiteSpace_lead_false w a r :
  w = String a r -> String.length w <> leadLength a -> isWhiteSpace w = false.
Proof.
  intros -> Hlen. destruct (isWhiteSpace (String a r)) eqn:Hw; [|reflexivity].
  destruct (isWhiteSpace_lead _ Hw) as (a' & r' & [= <- <-] & Hl). contradiction.
Qed.

(** [trimStart] strips a white space character in front... *)
Lemma trimStart_strip w s : isWhiteSpace w = true -> trimStart (w +:+ s) = trimStart s.
Proof.
  intros Hw.
  destruct (isWhiteSpace_shape w Hw)
    as [(a & -> & Ha)|[(a & b & -> & Ha)|(a & b & c & -> & Ha)]];
    rewrite ?append_cons, append_nil; cbn [trimStart].
  - rewrite Hw. reflexivity.
  - rewrite (isWhiteSpace_lead_false (String a "") a "" eq_refl) by (simpl; lia).
    rewrite Hw. reflexivity.
  - rewrite (isWhiteSpace_lead_false (String a "") a "" eq_refl) by (simpl; lia).
    rewrite (isWhiteSpace_lead_false (String a (String b "")) a _ eq_refl) by (simpl; lia).
    rewrite Hw. reflexivity.
Qed.

(** ... and keeps a string that has none in front. *)
Lemma trimStart_keep s : ~ startsWithWhiteSpace s -> trimStart s = s.
Proof.
  intros Hno. destruct s as [|a r1]; [reflexivity|]. cbn [trimStart].
  destruct (isWhiteSpace (String a "")) eqn:H1.
  { exfalso. apply Hno. exists (String a ""), r1. split; [exact H1 | reflexivity]. }
  destruct r1 as [|b r2]; [reflexivity|].
  destruct (isWhiteSpace (String a (String b ""))) eqn:H2.
  { exfalso. apply Hno. exists (String a (String b "")), r2. split; [exact H2 | reflexivity]. }
  destruct r2 as [|c r3]; [reflexivity|].
  destruct (isWhiteSpace (String a (String b (String c "")))) eqn:H3; [|reflexivity].
  exfalso. apply Hno. exists (String a (String b (String c ""))), r3.
  split; [exact H3 | reflexivity].
Qed.

Ltac no_white_start :=
  let w := fresh "w" in
  let r := fresh "r" in
  let Hw := fresh "Hw" in
  let Heq := fresh "Heq" in
  intros (w & r & Hw & Heq);
  destruct (isWhiteSpace_shape w Hw) as [(? & -> & _)|[(? & ? & -> & _)|(? & ? & ? & -> & _)]];
  rewrite ?append_cons, ?append_nil in Heq; simplify_eq; congruence.

Lemma startsWithWhiteSpace_dec s : startsWithWhiteSpace s \/ ~ startsWithWhiteSpace s.
Proof.
  destruct s as [|a r1]; [right; no_white_start|].
  destruct (isWhiteSpace (String a "")) eqn:H1.
  { left. exists (String a ""), r1. split; [exact H1 | reflexivity]. }
  destruct r1 as [|b r2]; [right; no_white_start|].
  destruct (isWhiteSpace (String a (String b ""))) eqn:H2.
  { left. exists (String a (String b "")), r2. split; [exact H2 | reflexivity]. }
  destruct r2 as [|c r3]; [right; no_white_start|].
  destruct (isWhiteSpace (String a (String b (String c "")))) eqn:H3; [|right; no_white_start].
  left. exists (String a (String b (String c ""))), r3. split; [exact H3 | reflexivity].
Qed.

Lemma trimStart_spec s :
  exists front,
    s = front +:+ trimStart s /\ allWhiteSpace front /\
    ~ startsWithWhiteSpace (trimStart s).
Proof.
  remember (String.length s) as n eqn:Hn. revert s Hn.
  induction n as [n IH] using lt_wf_ind. intros s ->.
  destruct (startsWithWhiteSpace_dec s) as [(w & r & Hw & ->)|Hno].
  - assert (Hlt : (String.length r < String.length (w +:+ r))%nat).
    { rewrite length_append. destruct (isWhiteSpace_lead w Hw) as (a & r0 & -> & _).
      simpl. lia. }
    destruct (IH _ Hlt r eq_refl) as (front & Hr & Hfront & Hstart).
    exists (w +:+ front). rewrite (trimStart_strip w r Hw), append_assoc, <- Hr.
    split; [reflexivity|]. split; [constructor; assumption | exact Hstart].
  - exists "". rewrite (trimStart_keep s Hno).
    split; [reflexivity|]. split; [constructor | exact Hno].
Qed.

Lemma trimEnd_spec s :
  exists back,
    s = trimEnd s +:+ back /\ allWhiteSpace back /\
    ~ endsWithWhiteSpace (trimEnd s) /\
    (~ startsWithWhiteSpace s -> ~ startsWithWhiteSpace (trimEnd s)).
Proof.
  assert (Hempty : ~ endsWithWhiteSpace "").
  { intros (front & w & Hw & Heq).
    destruct (isWhiteSpace_lead w Hw) as (a & r & -> & _).
    destruct front; rewrite ?append_cons, ?append_nil in Heq; discriminate. }
  assert (Hmain : exists back,
             s = trimEnd s +:+ back /\ allWhiteSpace back /\
             ~ endsWithWhiteSpace (trimEnd s)).
  { induction s as [|c r (back & Hr & Hws & Hend)].
    - exists "". split; [reflexivity|]. split; [constructor | exact Hempty].
    - cbn [trimEnd]. destruct (isWhiteSpace (String c (trimEnd r))) eqn:Hc.
      + exists (String c (trimEnd r) +:+ back).
        split; [rewrite append_nil, append_cons, <- Hr; reflexivity|].
        split; [constructor; assumption | exact Hempty].
      + exists back.
        split; [rewrite append_cons, <- Hr; reflexivity|].
        split; [exact Hws|].
        intros (front & w & Hw & Heq). destruct front as [|d front].
        * rewrite append_nil in Heq. congruence.
        * rewrite append_cons in Heq. injection Heq as _ Heq.
          apply Hend. exists front, w. split; assumption. }
  destruct Hmain as (back & Hs & Hws & Hend). exists back.
  split; [exact Hs|]. split; [exact Hws|]. split; [exact Hend|].
  intros Hno (w & rest & Hw & Heq). apply Hno. exists w, (rest +:+ back).
  split; [exact Hw|]. rewrite <- append_assoc, <- Heq. exact Hs.
Qed.

Lemma trim_spec s :
  exists front back,
    s = front +:+ trim s +:+ back /\
    allWhiteSpace front /\ allWhiteSpace back /\
    ~ startsWithWhiteSpace (trim s) /\ ~ endsWithWhiteSpace (trim s).
Proof.
  destruct (trimStart_spec s) as (front & Hs & Hfront & Hstart).
  destruct (trimEnd_spec (trimStart s)) as (back & Ht & Hback & Hend & Hkeep).
  exists front, back. unfold trim. rewrite <- Ht.
  repeat split; [exact Hs | exact Hfront | exact Hback | exact (Hkeep Hstart) | exact Hend].
Qed.

(** Nothing is left of a string that is white space all through. *)
Lemma trim_allWhiteSpace s : allWhiteSpace s -> trim s = "".
Proof.
  intros Hall. unfold trim.
  assert (Hstart : trimStart s = "").
  { induction Hall as [|w s Hw _ IH]; [reflexivity|].
    rewrite (trimStart_strip w s Hw). exact IH. }
  rewrite Hstart. reflexivity.
Qed.

Lemma extract_plain `{Packages} n attrName v :
  attrName <> "content" -> attrName <> "ping" -> attrName <> "srcset" ->
  attrMap n !! attrName = Some v ->
  extract n attrName = Normal (EString (trim v)).
Proof.
  intros Hc Hp Hs Hv. unfold extract.
  rewrite (proj2 (String.eqb_neq _ _) Hc), (proj2 (String.eqb_neq _ _) Hp),
    (proj2 (String.eqb_neq _ _) Hs), Hv.
  reflexivity.
Qed.

(** C4 (as amended).  For a recognised attribute other than content, ping
    and srcset the scraper trims the white space around the value (what it
    keeps neither begins nor ends with white space, and what it drops is
    white space), and hands the trimmed value to its callback as one
    candidate, also when nothing is left of it: a value that is white
    space all through gives the candidate with the empty URL. *)
Theorem trimmed_value_is_candidate `{Packages} {St : Type}
    (callback : loc -> node -> string -> string -> St -> completion St)
    l n linkAttrs a rest v s :
  truthy (linkAttrs !! attr_name a) = true ->
  attr_name a <> "content" -> attr_name a <> "ping" -> attr_name a <> "srcset" ->
  attrMap n !! attr_name a = Some v ->
  findLinks_attrs callback l n linkAttrs (a :: rest) s =
    (s1 ← callback l n (attr_name a) (trim v) s;
     findLinks_attrs callback l n linkAttrs rest s1) /\
  (exists front back,
     v = front +:+ trim v +:+ back /\
     allWhiteSpace front /\ allWhiteSpace back /\
     ~ startsWithWhiteSpace (trim v) /\ ~ endsWithWhiteSpace (trim v)) /\
  (allWhiteSpace v -> trim v = "").
Proof.
  intros Hrec Hc Hp Hs Hv. split; [|split; [apply trim_spec | apply trim_allWhiteSpace]].
  simpl. rewrite Hrec, (extract_plain n _ v Hc Hp Hs Hv). reflexivity.
Qed.

(** An anchor whose href is a space and a no-break space gives one
    candidate, with the empty URL. *)
Lemma trimmed_value_is_candidate_witness :
  findLinks_attrs record_candidate [0%nat] (el "a" [Attr "href" demo_blank] [])
    {[ "href" := true ]} [Attr "href" demo_blank] []
  = Normal [([0%nat], "href", "")].
Proof.
  assert (Hrecognised : truthy (({[ "href" := true ]} : gmap string bool) !! "href") = true)
    by (vm_compute; reflexivity).
  assert (Hvalue : attrMap (el "a" [Attr "href" demo_blank] []) !! "href" = Some demo_blank)
    by (vm_compute; reflexivity).
  destruct (trimmed_value_is_candidate record_candidate [0%nat]
              (el "a" [Attr "href" demo_blank] []) {[ "href" := true ]}
              (Attr "href" demo_blank) [] demo_blank [] Hrecognised
              ltac:(discriminate) ltac:(discriminate) ltac:(discriminate) Hvalue)
    as [Hrun _].
  rewrite Hrun. vm_compute; reflexivity.
Defined.

(** The first candidate of the page of the concrete setting is the anchor
    whose href is two spaces, with the empty URL. *)
Lemma empty_after_trim_counterexample :
  ~ empty_values_are_skipped [1%nat] demo_root.
Proof.
  intros Hskip.
  assert (Hfound : candidates [1%nat] demo_root = Normal
            [([1; 1; 1]%nat, "href", ""); ([0; 2; 1; 1]%nat, "src", "a.png");
             ([1; 2; 1; 1]%nat, "href", "mailto:me")])
    by (vm_compute; reflexivity).
  refine (Hskip _ [1; 1; 1]%nat "href" "" Hfound _ _ _ _ eq_refl);
    [apply list_elem_of_here | discriminate..].
Qed.

(** With level 0 configured the scraper finds the image of the page all
    the same, which the table of level 0 does not have. *)
Lemma filter_level_counterexample :
  ~ scraper_follows_filter_level 0 [1%nat] demo_root.
Proof.
  unfold scraper_follows_filter_level. vm_compute. discriminate.
Qed.

(** ** The base URL *)

Lemma base_step_found b nodes : foldl base_step (Some b) nodes = Some b.
Proof. induction nodes as [|n nodes IH]; [reflexivity | exact IH]. Qed.

Lemma foldl_base_step nodes :
  foldl base_step None nodes = firstBaseHref nodes.
Proof.
  unfold firstBaseHref.
  induction nodes as [|n nodes IH]; [reflexivity|].
  simpl. unfold hasHref. destruct (nodeName n ==? "base"); simpl; [|exact IH].
  destruct (attrMap n !! "href") as [h|] eqn:Hh; simpl; [|exact IH].
  rewrite Hh. apply base_step_found.
Qed.

Lemma findPreliminaries_visit_base `{Packages} robots l n base rb :
  exists rb' go,
    findPreliminaries_visit robots l n (base, rb) = Normal ((base_step base n, rb'), go) /\
    (go = false -> is_Some (base_step base n)).
Proof.
  unfold findPreliminaries_visit, base_step.
  destruct (nodeName n ==? "base") eqn:Hbase.
  - destruct base as [b|]; simpl.
    + destruct robots; eexists _, _; (split; [reflexivity|]); intros _; eexists; reflexivity.
    + destruct (attrMap n !! "href") as [h|]; simpl.
      * destruct robots; eexists _, _; (split; [reflexivity|]); intros _; eexists; reflexivity.
      * destruct robots; eexists _, _; (split; [reflexivity|]); discriminate.
  - destruct (nodeName n ==? "meta").
    + destruct rb as [r|], (attrMap n !! "name") as [nm|], (attrMap n !! "content") as [ct|];
        try destruct ((toLowerCase (trim nm) ==? "robots") || isBot (toLowerCase (trim nm)));
        simpl; destruct base as [b|], robots; simpl;
        eexists _, _; (split; [reflexivity|]);
        first [discriminate | intros _; eexists; reflexivity].
    + destruct base as [b|], robots; simpl;
        eexists _, _; (split; [reflexivity|]);
        first [discriminate | intros _; eexists; reflexivity].
Qed.

Lemma walk_children_base `{Packages} robots cs :
  Forall (fun c => forall l base rb,
            exists base' rb' go,
              walk (findPreliminaries_visit robots) l c (base, rb)
                = Normal ((base', rb'), go) /\
              base' = foldl base_step base (preorder c) /\
              (go = false -> is_Some base')) cs ->
  forall l i base rb,
  exists base' rb' go,
    walk_children (findPreliminaries_visit robots) l cs i (base, rb)
      = Normal ((base', rb'), go) /\
    base' = foldl base_step base (flat_map preorder cs) /\
    (go = false -> is_Some base').
Proof.
  induction 1 as [|c rest Hc _ IH]; intros l i base rb; simpl.
  - eexists _, _, _. split; [reflexivity|]. split; [reflexivity | discriminate].
  - destruct (Hc (i :: l) base rb) as (b1 & rb1 & go1 & -> & Hb1 & Hkill1). simpl.
    rewrite foldl_app, <- Hb1. destruct go1; simpl.
    + apply IH.
    + destruct (Hkill1 eq_refl) as [x ->].
      eexists _, _, _. split; [reflexivity|].
      split; [symmetry; apply base_step_found | intros _; eexists; reflexivity].
Qed.

Lemma walk_base `{Packages} robots n :
  forall l base rb,
  exists base' rb' go,
    walk (findPreliminaries_visit robots) l n (base, rb) = Normal ((base', rb'), go) /\
    base' = foldl base_step base (preorder n) /\
    (go = false -> is_Some base').
Proof.
  induction n as [name attrs value location children Hchildren] using node_induction.
  intros l base rb. rewrite walk_unfold.
  destruct (findPreliminaries_visit_base robots l
              (Node name attrs value location children) base rb)
    as (rb1 & go & -> & Hkill).
  cbn [mbind completion_bind preorder foldl childNodes].
  destruct go; cbn [negb].
  - destruct children as [cs|].
    + apply (walk_children_base robots cs Hchildren).
    + eexists _, _, _. split; [reflexivity|]. split; [reflexivity | discriminate].
  - destruct (Hkill eq_refl) as [x Hx]. rewrite Hx.
    eexists _, _, _. split; [reflexivity|].
    split; [symmetry; apply base_step_found | intros _; eexists; reflexivity].
Qed.

(** C5 (as amended).  The preliminary walk always returns, and the base it
    returns is the trimmed href of the first base element, in document
    order, that has an href attribute, be it empty; base elements without
    one are passed over and later ones are still considered; there is no
    base when no element qualifies. *)
Theorem base_is_first_href `{Packages} rootLoc rootNode robots :
  exists robots',
    findPreliminaries rootLoc rootNode robots =
      Normal (firstBaseHref (preorder rootNode), robots').
Proof.
  unfold findPreliminaries.
  destruct (walk_base robots rootNode rootLoc None robots) as (base' & rb' & go & -> & -> & _).
  exists rb'. simpl. rewrite foldl_base_step. reflexivity.
Qed.

(** The first base element of the page has an empty href: the scraper
    takes it, and not the next one, whose href is /x/. *)
Lemma first_base_counterexample :
  ~ base_is_first_nonempty_href [1%nat] demo_root
      (Some {| robots_userAgent := "blc"; robots_declarations := [] |}).
Proof.
  intros [robots' Hbase]. vm_compute in Hbase. discriminate.
Qed.

(** ** The selector *)

Lemma needsNthChild_spec name :
  needsNthChild name =
    negb ((name ==? "html") || (name ==? "head") || (name ==? "body")).
Proof.
  unfold needsNthChild.
  destruct (name ==? "html"), (name ==? "head"), (name ==? "body"); reflexivity.
Qed.

Lemma element_or_text c :
  isElementName c || isTextOrComment c = true ->
  isElementName c = true <-> isTextOrComment c = false.
Proof.
  unfold isElementName, isTextOrComment.
  destruct (String.eqb_spec (nodeName c) "#text") as [->|_];
    [simpl; intros _; split; discriminate|].
  destruct (String.eqb_spec (nodeName c) "#comment") as [->|_];
    [simpl; intros _; split; discriminate|].
  simpl. rewrite orb_false_r. intros ->. split; reflexivity.
Qed.

Lemma getNthIndex_loop_spec siblings :
  forall self i count,
  (i <= self)%nat ->
  forallb (fun c => isElementName c || isTextOrComment c) siblings = true ->
  getNthIndex_loop siblings self i count =
    count + precedingElements siblings (self - i).
Proof.
  unfold precedingElements.
  induction siblings as [|c rest IH]; intros self i count Hle Hknown; simpl.
  - rewrite take_nil. simpl. lia.
  - simpl in Hknown. apply andb_prop in Hknown as [Hc Hrest].
    destruct (Nat.eqb_spec i self) as [->|Hne]; simpl.
    + rewrite Nat.sub_diag. simpl. lia.
    + rewrite (IH self (S i) _ ltac:(lia) Hrest).
      replace (self - i)%nat with (S (self - S i)) by lia. simpl take.
      rewrite filter_cons.
      pose proof (element_or_text c Hc) as Hiff. unfold isElementName in Hiff.
      destruct (firstCharIsNot (nodeName c) "#").
      * rewrite decide_True by (apply Hiff; reflexivity). simpl length. lia.
      * rewrite decide_False; [lia|].
        intros Hno. apply Hiff in Hno. discriminate.
Qed.

Lemma getSelector_name_spec document i p siblings n :
  node_at document p ≫= childNodes = Some siblings ->
  negb (needsNthChild (nodeName n)) ||
    forallb (fun c => isElementName c || isTextOrComment c) siblings = true ->
  getSelector_name document (i :: p) n = Normal (segment_spec siblings i n).
Proof.
  intros Hsiblings Hknown. unfold getSelector_name, segment_spec.
  rewrite needsNthChild_spec in *.
  destruct ((nodeName n ==? "html") || (nodeName n ==? "head") || (nodeName n ==? "body"));
    simpl in *; [reflexivity|].
  destruct (node_at document p) as [parent|]; simpl in *; [|discriminate].
  rewrite Hsiblings. simpl.
  rewrite (getNthIndex_loop_spec siblings i 0 0 (Nat.le_0_l i) Hknown).
  rewrite Nat.sub_0_r. reflexivity.
Qed.

Lemma getSelector_loop_spec document :
  nodeName document = "#document" ->
  forall l selector,
  elementPath document l = true ->
  getSelector_loop document l selector =
    Normal (selector ++ reverse (segments_spec document l)).
Proof.
  intros Hdoc. induction l as [|i p IH]; intros selector Hpath.
  - simpl. rewrite Hdoc. simpl. rewrite app_nil_r. reflexivity.
  - simpl in Hpath. apply andb_prop in Hpath as [Hp Hhere].
    cbn [getSelector_loop segments_spec node_at].
    destruct (node_at document p ≫= childNodes) as [siblings|] eqn:Hsiblings; [|discriminate].
    assert (Hat : match node_at document p with
                  | Some parent =>
                      match childNodes parent with
                      | Some cs => cs !! i
                      | None => None
                      end
                  | None => None
                  end = siblings !! i).
    { destruct (node_at document p) as [parent|]; simpl in Hsiblings; [|discriminate].
      rewrite Hsiblings. reflexivity. }
    rewrite Hat.
    destruct (siblings !! i) as [n|]; [|discriminate].
    apply andb_prop in Hhere as [Helement Hknown].
    assert (Hname : (nodeName n ==? "#document") = false).
    { unfold isElementName in Helement. destruct (String.eqb_spec (nodeName n) "#document") as [Heq|];
        [rewrite Heq in Helement; discriminate | reflexivity]. }
    cbn [deref mbind completion_bind]. rewrite Hname. cbn [negb].
    rewrite (getSelector_name_spec document i p siblings n Hsiblings Hknown).
    cbn [mbind completion_bind].
    rewrite (IH _ Hp), reverse_app, <- app_assoc. reflexivity.
Qed.

(** C9.  For an element reached from the document through elements, the
    selector is made of one segment per element on the way, the document
    itself left out: the name of the element, followed, unless the name is
    html, head or body, by an nth-child suffix whose number is one plus the
    number of element siblings before it, text and comment nodes not
    counted; the segments run from the top down and are joined by
    [" > "]. *)
Theorem selector_follows_path document l :
  nodeName document = "#document" ->
  elementPath document l = true ->
  getSelector document l = Normal (selector_spec document l).
Proof.
  intros Hdoc Hpath. unfold getSelector, selector_spec.
  rewrite (getSelector_loop_spec document Hdoc l [] Hpath). simpl.
  rewrite reverse_involutive. reflexivity.
Qed.

(** The selector of the mailto anchor of the page. *)
Lemma selector_follows_path_witness :
  getSelector demo_document [1; 2; 1; 1]%nat =
    Normal "html > body > div:nth-child(2) > a:nth-child(2)".
Proof.
  rewrite (selector_follows_path demo_document [1; 2; 1; 1]%nat);
    vm_compute; reflexivity.
Defined.

(** ** The indices of the scraper *)

Lemma findLinks_attrs_keeps `{Packages} {St : Type} (P : St -> Prop)
    (callback : loc -> node -> string -> string -> St -> completion St)
    l n linkAttrs rest :
  (forall l n attrName url s s', P s -> callback l n attrName url s = Normal s' -> P s') ->
  forall s s', P s -> findLinks_attrs callback l n linkAttrs rest s = Normal s' -> P s'.
Proof.
  intros Hcallback. induction rest as [|a rest IH]; intros s s' Hs; simpl.
  - intros [= <-]. exact Hs.
  - destruct (truthy (linkAttrs !! attr_name a)); [|apply IH; exact Hs].
    destruct (extract n (attr_name a)) as [url|e]; simpl; [|discriminate].
    destruct (findLinks_emit callback l n (attr_name a) url s) as [s2|e] eqn:Hemit;
      simpl; [|discriminate].
    apply IH. destruct url as [|u|urls]; simpl in Hemit.
    + injection Hemit as <-. exact Hs.
    + exact (Hcallback _ _ _ _ _ _ Hs Hemit).
    + revert Hemit. apply forEach_keeps; [|exact Hs].
      intros u t t'. apply Hcallback.
Qed.

Lemma findLinks_keeps `{Packages} `{Internals} {St : Type} (P : St -> Prop)
    (callback : loc -> node -> string -> string -> St -> completion St)
    rootLoc rootNode s s' :
  (forall l n attrName url s s', P s -> callback l n attrName url s = Normal s' -> P s') ->
  P s -> findLinks callback rootLoc rootNode s = Normal s' -> P s'.
Proof.
  intros Hcallback Hs. unfold findLinks.
  destruct (walk _ rootLoc rootNode s) as [[s1 go]|e] eqn:Hwalk; simpl; [|discriminate].
  intros [= <-]. revert Hwalk. apply walk_keeps; [|exact Hs].
  intros l n t t' go' Ht. unfold findLinks_visit.
  destruct maxFilterLevel as [table|]; simpl; [|discriminate].
  destruct (table !! nodeName n) as [linkAttrs|]; [|intros [= <- _]; exact Ht].
  destruct (findLinks_attrs callback l n linkAttrs (attrs n) t) as [t1|e] eqn:Hattrs;
    simpl; [|discriminate].
  intros [= <- _].
  exact (findLinks_attrs_keeps P callback l n linkAttrs (attrs n) Hcallback t t1 Ht Hattrs).
Qed.

(** X11.  The scraper numbers the links it returns 0..N-1, in the order it
    returns them: the index of a link is its position in the list. *)
Lemma scrapeHtml_index_dense `{Packages} `{Internals} document pageUrl robots links :
  snd (scrapeHtml document pageUrl robots) = Normal links ->
  forall (j : nat) link, links !! j = Some link -> html_index link = Z.of_nat j.
Proof.
  unfold scrapeHtml.
  destruct (root ← findRootNode document; deref root) as [[rootLoc rootNode]|e];
    [|discriminate].
  destruct (findPreliminaries rootLoc rootNode robots) as [[base robots1]|e];
    [|discriminate].
  simpl. apply (findLinks_keeps
    (fun links => forall (j : nat) link, links !! j = Some link ->
                    html_index link = Z.of_nat j)).
  - intros l n attrName url found found' Hfound. unfold scrapeHtml_callback.
    destruct (getSelector document l) as [selector|e]; simpl; [|discriminate].
    destruct (getText l n) as [text|e]; simpl; [|discriminate].
    intros [= <-] j link Hj.
    destruct (decide (j < length found)%nat) as [Hlt|Hge].
    + rewrite lookup_app_l in Hj by exact Hlt. exact (Hfound j link Hj).
    + rewrite lookup_app_r in Hj by lia.
      destruct (j - length found)%nat as [|d] eqn:Hd; simpl in Hj; [|discriminate].
      injection Hj as <-. simpl. f_equal. lia.
  - intros j link Hj. rewrite lookup_nil in Hj. discriminate.
Qed.

(** ** The filter chain *)

Lemma maybeExcludeLink_firstMatch `{Packages} `{Internals} instance link :
  maybeExcludeLink instance link = firstMatch (exclusionRules instance link).
Proof.
  unfold maybeExcludeLink, exclusionRules, firstMatch.
  destruct (opt_tags (options instance) !! filterLevel (options instance))
    as [level|]; simpl; [|reflexivity].
  destruct (unsupportedLocation _ _); simpl; [reflexivity|].
  destruct (excludeExternalLinks _ && _); simpl; [reflexivity|].
  destruct (excludeInternalLinks _ && _); simpl; [reflexivity|].
  destruct (excludeLinksToSamePage _ && _); simpl; [reflexivity|].
  destruct (url_rebased link) as [rebased|]; simpl; [|reflexivity].
  destruct (truthy (excludedSchemes _ !! _)); simpl; [reflexivity|].
  destruct (honorRobotExclusions (options instance)); simpl.
  - destruct (robots (fields instance)) as [r|]; simpl; [|reflexivity].
    destruct (robots_oneIs r _); simpl; [reflexivity|].
    destruct (robots_is r NOIMAGEINDEX && _); simpl; [reflexivity|].
    destruct (html_attrs link) as [attrs|]; simpl.
    + destruct (attrs !! "rel") as [rel|]; simpl.
      * destruct (linkTypes_nofollow rel); simpl; [reflexivity|].
        destruct (matchUrl _ _); simpl; [reflexivity|].
        destruct (customFilter _ link) as [[]|[]]; reflexivity.
      * destruct (matchUrl _ _); simpl; [reflexivity|].
        destruct (customFilter _ link) as [[]|[]]; reflexivity.
    + destruct (matchUrl _ _); simpl; [reflexivity|].
      destruct (customFilter _ link) as [[]|[]]; reflexivity.
  - destruct (matchUrl _ _); simpl; [reflexivity|].
    destruct (customFilter _ link) as [[]|[]]; reflexivity.
Qed.

Lemma firstMatch_earliest rules k test reason :
  rules !! k = Some (test, reason) ->
  test = Normal true ->
  (forall j test' reason', (j < k)%nat ->
     rules !! j = Some (test', reason') -> test' = Normal false) ->
  firstMatch rules = Normal reason.
Proof.
  revert k. induction rules as [|[t r] rest IH]; intros k Hk Ht Hbefore.
  - discriminate.
  - destruct k as [|k]; simpl in Hk.
    + injection Hk as -> ->. subst. reflexivity.
    + pose proof (Hbefore 0%nat t r (Nat.lt_0_succ k) eq_refl) as ->.
      simpl. apply (IH k Hk Ht).
      intros j t' r' Hj Hl. apply (Hbefore (S j) t' r'); [lia | exact Hl].
Qed.

Lemma firstMatch_none rules :
  Forall (fun rule => fst rule = Normal false) rules ->
  firstMatch rules = Normal JFalse.
Proof.
  induction 1 as [|[t r] rest Ht _ IH]; [reflexivity|].
  simpl in Ht. subst t. exact IH.
Qed.

(** X12.  An unresolved URL does not get past the filter chain: when none
    of the first four rules excludes the link and its rebased URL is null,
    reading the scheme of that URL throws a TypeError instead of
    returning a reason. *)
Lemma maybeExcludeLink_unresolved `{Packages} `{Internals} this link level :
  opt_tags (options this) !! filterLevel (options this) = Some level ->
  unsupportedLocation (level !! html_tagName link) (html_attrName link) = false ->
  excludeExternalLinks (options this) && bool_decide (internal link = Some false) = false ->
  excludeInternalLinks (options this) && truthy (internal link) = false ->
  excludeLinksToSamePage (options this) && truthy (samePage link) = false ->
  url_rebased link = None ->
  maybeExcludeLink this link = TypeError.
Proof.
  intros Hlevel H1 H2 H3 H4 Hnull. unfold maybeExcludeLink.
  rewrite Hlevel. simpl. rewrite H1, H2, H3, H4, Hnull. reflexivity.
Qed.

(** C1.  The filter chain applies the ten exclusion rules in the listed
    order and first match wins: the order of the reasons is
    unsupported-html-location, external, internal, same-page, scheme,
    robots (blanket), robots (no image index), robots (rel nofollow),
    keyword, custom; when a rule matches and every rule listed before it
    does not, its reason is the one reported, whatever later rules would
    say; and when no rule matches the link is not excluded. *)
Theorem filter_chain_first_match `{Packages} `{Internals} instance link :
  length (exclusionRules instance link) = 10%nat /\
  take 9 (snd <$> exclusionRules instance link) =
    [BLC_HTML; BLC_EXTERNAL; BLC_INTERNAL; BLC_SAMEPAGE; BLC_SCHEME;
     BLC_ROBOTS; BLC_ROBOTS; BLC_ROBOTS; BLC_KEYWORD] /\
  (forall k test reason,
     exclusionRules instance link !! k = Some (test, reason) ->
     test = Normal true ->
     (forall j test' reason', (j < k)%nat ->
        exclusionRules instance link !! j = Some (test', reason') ->
        test' = Normal false) ->
     maybeExcludeLink instance link = Normal reason) /\
  (Forall (fun rule => fst rule = Normal false) (exclusionRules instance link) ->
   maybeExcludeLink instance link = Normal JFalse).
Proof.
  split; [reflexivity|]. split; [reflexivity|]. split.
  - intros k test reason Hk Ht Hbefore.
    rewrite maybeExcludeLink_firstMatch.
    exact (firstMatch_earliest _ k test reason Hk Ht Hbefore).
  - intros Hnone. rewrite maybeExcludeLink_firstMatch.
    exact (firstMatch_none _ Hnone).
Qed.

(** In the concrete setting the mailto link matches the internal rule and
    the scheme rule; the internal rule comes first and is reported. *)
Lemma filter_chain_first_match_witness :
  exclusionRules demo_strict demo_mailto !! 2%nat = Some (Normal true, BLC_INTERNAL) /\
  exclusionRules demo_strict demo_mailto !! 4%nat = Some (Normal true, BLC_SCHEME) /\
  maybeExcludeLink demo_strict demo_mailto = Normal BLC_INTERNAL.
Proof.
  split; [vm_compute; reflexivity|]. split; [vm_compute; reflexivity|].
  destruct (filter_chain_first_match demo_strict demo_mailto) as (_ & _ & Hfirst & _).
  apply (Hfirst 2%nat (Normal true)); [vm_compute; reflexivity | reflexivity |].
  intros [|[|j]] test' reason' Hj Hrule; [| |lia];
    vm_compute in Hrule; congruence.
Defined.

(** ** A rejected enqueue *)

Lemma UrlChecker_enqueue_rejected `{Packages} `{Internals} u url customData auth :
  fst (UrlChecker_enqueue u url customData auth) = None ->
  snd (UrlChecker_enqueue u url customData auth) = u.
Proof.
  unfold UrlChecker_enqueue, RequestQueue_enqueue.
  destruct (queueAccepts _); simpl; [discriminate|].
  intros _. destruct u; reflexivity.
Qed.

(** X23.  When the filter chain lets a link through, so that its URL
    resolved, and the check queue refuses it (enqueue answers undefined),
    the orchestrator at once emits a link notification for it with broken
    set and the reason BLC_INVALID; the queue is as it was, so the link
    never entered it; nothing is thrown; and the loop over the links goes
    on with the next one. *)
Theorem rejected_enqueue_reported_invalid `{Packages} `{Internals} link this rest :
  maybeExcludeLink this link = Normal JFalse ->
  fst (UrlChecker_enqueue (urlChecker this)
         (inl (link_include (html_index link - excludedLinks (fields this)) link))
         None (auth (fields this))) = None ->
  exists link2 this',
    maybeEnqueueLink link this = Normal (link2, this') /\
    excluded link2 = Some false /\
    broken link2 = Some true /\
    brokenReason link2 = Some "BLC_INVALID" /\
    emitted this' =
      emitted this ++ [ {| em_event := EvLink link2; em_fields := fields this |} ] /\
    urlChecker this' = urlChecker this /\
    fields this' = fields this /\
    forEach_mut maybeEnqueueLink (link :: rest) this =
      (let '(rest', this'', c) := forEach_mut maybeEnqueueLink rest this' in
       (link2 :: rest', this'', c)).
Proof.
  intros Hincluded Hrejected.
  pose proof (UrlChecker_enqueue_rejected _ _ _ _ Hrejected) as Hsame.
  eexists _, _.
  assert (Hrun : maybeEnqueueLink link this = Normal
            (link_break true (Some "BLC_INVALID")
               (link_include (html_index link - excludedLinks (fields this)) link),
             emit (EvLink (link_break true (Some "BLC_INVALID")
                      (link_include (html_index link - excludedLinks (fields this)) link)))
               (with_urlChecker (urlChecker this) this))).
  { unfold maybeEnqueueLink. rewrite Hincluded. simpl.
    rewrite Hrejected, Hsame. reflexivity. }
  split; [exact Hrun|].
  repeat split.
  simpl. rewrite Hrun. reflexivity.
Qed.

(** In the concrete setting the queue takes http URLs only: the mailto
    link is not excluded, is rejected and is reported invalid. *)
Lemma rejected_enqueue_reported_invalid_witness :
  maybeExcludeLink (checker demo_scraped) demo_mailto = Normal JFalse /\
  exists link2 this',
    maybeEnqueueLink demo_mailto (checker demo_scraped) = Normal (link2, this') /\
    broken link2 = Some true /\
    brokenReason link2 = Some "BLC_INVALID" /\
    urlChecker this' = urlChecker (checker demo_scraped).
Proof.
  split; [vm_compute; reflexivity|].
  destruct (rejected_enqueue_reported_invalid demo_mailto (checker demo_scraped) [])
    as (link2 & this' & Hrun & _ & Hbroken & Hreason & _ & Hqueue & _).
  - vm_compute; reflexivity.
  - vm_compute; reflexivity.
  - exists link2, this'. repeat split; assumption.
Defined.

(** ** The guard of [scan] *)

(** C7.  A call of scan while a scan is active (the instance is in any
    state but Idle) returns false and changes nothing: the instance with
    its fields and its emissions, the queue and the pending reactions are
    as they were.  A call while the instance is idle returns true. *)
Theorem scan_rejected_while_active `{Internals} html baseUrl robots auth w :
  (active (fields (checker w)) = true ->
   scan html baseUrl robots auth w = (false, w)) /\
  (active (fields (checker w)) = false ->
   fst (scan html baseUrl robots auth w) = true).
Proof.
  unfold scan. split; intros ->; reflexivity.
Qed.

(** A second scan while the first drains is rejected; a scan on a new
    instance is accepted. *)
Lemma scan_rejected_while_active_witness :
  scan "<p>" "http://blc/2" None None demo_draining = (false, demo_draining) /\
  fst (scan "<p>" "http://blc/2" None None (HtmlChecker_new demo_options)) = true.
Proof.
  split.
  - apply (scan_rejected_while_active "<p>" "http://blc/2" None None demo_draining).
    vm_compute; reflexivity.
  - apply (scan_rejected_while_active "<p>" "http://blc/2" None None
             (HtmlChecker_new demo_options)).
    reflexivity.
Defined.

(** ** Completion *)

Lemma count_events_emit p e this :
  count_events p (emit e this) = (count_events p this + (if p e then 1 else 0))%nat.
Proof.
  unfold count_events, emit. simpl.
  rewrite filter_app, length_app. f_equal.
  rewrite filter_cons, filter_nil. simpl.
  destruct (p e); reflexivity.
Qed.

Lemma same_scan_refl this : same_scan this this.
Proof. repeat split. Qed.

Lemma same_scan_trans a b c : same_scan a b -> same_scan b c -> same_scan a c.
Proof.
  intros (?&?&?&?) (?&?&?&?). repeat split; congruence.
Qed.

Lemma maybeEnqueueLink_same_scan `{Packages} `{Internals} link this link' this' :
  maybeEnqueueLink link this = Normal (link', this') -> same_scan this this'.
Proof.
  unfold maybeEnqueueLink.
  destruct (maybeExcludeLink this link) as [reason|]; simpl; [|discriminate].
  destruct (negb (jsval_eqb reason JFalse)).
  - intros [= _ <-]. unfold same_scan, completions, htmls.
    rewrite !count_events_emit. simpl. repeat split; unfold count_events; simpl; lia.
  - destruct (fst (UrlChecker_enqueue _ _ _ _)); simpl; intros [= _ <-].
    + repeat split.
    + unfold same_scan, completions, htmls.
      rewrite !count_events_emit. simpl. repeat split; unfold count_events; simpl; lia.
Qed.

Lemma forEach_mut_same_scan `{Packages} `{Internals} links this links' this' c :
  forEach_mut maybeEnqueueLink links this = (links', this', c) -> same_scan this this'.
Proof.
  revert this links' this' c.
  induction links as [|link rest IH]; intros this links' this' c; simpl.
  - intros [= _ <- _]. apply same_scan_refl.
  - destruct (maybeEnqueueLink link this) as [[link1 this1]|e] eqn:Hone.
    + destruct (forEach_mut maybeEnqueueLink rest this1) as [[rest1 this2] c1] eqn:Hrest.
      intros [= _ <- _].
      eapply same_scan_trans;
        [exact (maybeEnqueueLink_same_scan _ _ _ _ Hone) | exact (IH _ _ _ _ Hrest)].
    + intros [= _ <- _]. apply same_scan_refl.
Qed.

Lemma complete_counts this :
  completions (complete this) = S (completions this) /\
  htmls (complete this) = htmls this /\
  fields (complete this) = reset_fields.
Proof.
  unfold complete, completions, htmls. rewrite !count_events_emit. simpl.
  repeat split; unfold count_events; simpl; lia.
Qed.

Lemma scan_links_cases `{Packages} `{Internals} tree links this :
  exists links' this2 c,
    forEach_mut maybeEnqueueLink links (emit (EvHtml tree (robots (fields this))) this)
      = (links', this2, c) /\
    active (fields this2) = active (fields this) /\
    parsed (fields this2) = parsed (fields this) /\
    completions this2 = completions this /\
    htmls this2 = S (htmls this) /\
    (scan_links tree links this = this2 /\ (exists e, c = Throw e) \/
     scan_links tree links this = with_fields (set_parsed true (fields this2)) this2 /\
       c = Normal tt \/
     scan_links tree links this =
       complete (with_fields (set_parsed true (fields this2)) this2) /\ c = Normal tt).
Proof.
  unfold scan_links.
  destruct (forEach_mut maybeEnqueueLink links _) as [[links' this2] c] eqn:Hpass.
  exists links', this2, c. split; [reflexivity|].
  destruct (forEach_mut_same_scan _ _ _ _ _ Hpass) as (Ha & Hp & Hc & Hh).
  unfold completions, htmls in *. rewrite count_events_emit in Hc, Hh. simpl in *.
  repeat (split; [first [exact Ha | exact Hp | lia]|]).
  destruct c as [[]|e].
  - destruct (_ && _); [right; right | right; left]; split; reflexivity.
  - left. split; [reflexivity | eexists; reflexivity].
Qed.

Lemma step_consistent `{Packages} `{Internals} l w :
  consistent w -> consistent (step l w).
Proof.
  intros Hw. pose proof Hw as (Hparsed & Hpending & Hquiet & Hcount).
  assert (Hidle : active (fields (checker w)) = false ->
                  promises w = [] /\ parsed (fields (checker w)) = false).
  { intros Hidle. split.
    - destruct (promises w); [reflexivity|].
      destruct Hpending as [Hp _]; [discriminate | congruence].
    - destruct (parsed (fields (checker w))); [|reflexivity].
      destruct Hparsed as [Hp _]; [reflexivity | congruence]. }
  assert (Hwaiting : promises w <> [] ->
                     active (fields (checker w)) = true /\
                     parsed (fields (checker w)) = false /\
                     htmls (checker w) = completions (checker w) /\
                     exists p, promises w = [p]).
  { intros Hne. destruct (Hpending Hne) as (Hactive & Hone & Heq).
    split; [exact Hactive|]. split; [|split; [exact Heq|]].
    - destruct (parsed (fields (checker w))); [|reflexivity].
      destruct Hparsed as (_ & Hp & _); [reflexivity | contradiction].
    - destruct (promises w) as [|p [|q rest]]; try discriminate. exists p. reflexivity. }
  destruct l as [html baseUrl rb au| |url cd au| |id isBroken reason]; simpl.
  - (* scan *)
    unfold scan. destruct (active (fields (checker w))) eqn:Hactive; simpl; [exact Hw|].
    destruct (Hidle eq_refl) as [Hnone Hnp].
    unfold consistent. simpl. rewrite Hnone, Hnp. simpl.
    pose proof (Hquiet eq_refl) as Heq.
    unfold completions, htmls, count_events in *. simpl.
    repeat split; try discriminate; try lia.
  - (* a reaction *)
    destruct (promises w) as [|p rest] eqn:Hpr; [exact Hw|].
    destruct Hwaiting as (Hactive & Hnp & Heq & q & [= <- ->]); [discriminate|].
    destruct p as [html|tree links].
    + unfold scan_scrape.
      destruct (snd (scrapeHtml _ _ _)); unfold consistent; simpl;
        rewrite Hnp, Hactive; unfold completions, htmls, count_events in *; simpl;
        repeat split; try discriminate; try tauto; lia.
    + destruct (scan_links_cases tree links (checker w))
        as (links' & this2 & c & _ & Ha & Hp & Hc & Hh & Hcases).
      unfold consistent. simpl.
      destruct Hcases as [[-> _]|[[-> _]|[-> _]]].
      * rewrite Hp, Hnp, Ha, Hactive, Hc, Hh.
        repeat split; try discriminate; try tauto; lia.
      * unfold completions, htmls, count_events in *. simpl.
        rewrite Ha, Hactive. repeat split; try discriminate; try tauto; lia.
      * destruct (complete_counts (with_fields (set_parsed true (fields this2)) this2))
          as (Hcc & Hch & ->).
        rewrite Hcc, Hch. unfold completions, htmls, count_events in *. simpl.
        repeat split; try discriminate; try tauto; lia.
  - (* a direct enqueue *)
    exact Hw.
  - (* an item starts *)
    exact Hw.
  - (* an item is done *)
    unfold item_done.
    destruct (list_find _ _) as [[k item]|]; [|destruct w; exact Hw].
    unfold on_link.
    set (this1 := with_urlChecker _ (emit _ (checker w))).
    assert (H1 : fields this1 = fields (checker w) /\
                 completions this1 = completions (checker w) /\
                 htmls this1 = htmls (checker w)).
    { unfold this1, completions, htmls, count_events. simpl.
      rewrite !filter_app, !length_app. simpl. repeat split; lia. }
    destruct H1 as (Hf & Hc & Hh).
    assert (Hq : linkQueue (urlChecker (emit
                   (EvLink (link_break isBroken reason (item_link item))) (checker w)))
                 = linkQueue (urlChecker (checker w))) by reflexivity.
    rewrite Hq. clearbody this1.
    assert (Hthis1 : consistent {| checker := this1; promises := promises w |}).
    { unfold consistent. simpl. rewrite Hf, Hc, Hh.
      exact (conj Hparsed (conj Hpending (conj Hquiet Hcount))). }
    destruct (queue_isEmpty _); [|exact Hthis1].
    unfold on_end. destruct (parsed (fields this1)) eqn:Hp; [|exact Hthis1].
    rewrite Hf in Hp. destruct (Hparsed Hp) as (_ & Hnone & Hlt).
    destruct (complete_counts this1) as (Hcc & Hch & Hcf).
    unfold consistent. cbn [checker promises]. rewrite Hcc, Hch, Hcf, Hc, Hh, Hnone. simpl.
    repeat split; try discriminate; try tauto; lia.
Qed.

Lemma step_counter_at_rest `{Packages} `{Internals} l w :
  consistent w -> counter_at_rest w -> counter_at_rest (step l w).
Proof.
  intros (Hparsed & Hpending & _) Hrest. unfold counter_at_rest in *.
  destruct l as [html baseUrl rb au| |url cd au| |id isBroken reason]; simpl.
  - unfold scan. destruct (active (fields (checker w))) eqn:Hactive; simpl.
    + intros [Hidle|Hwaiting]; [congruence | apply Hrest; right; exact Hwaiting].
    + intros _. apply Hrest. left. reflexivity.
  - destruct (promises w) as [|p rest] eqn:Hpr; [rewrite Hpr; exact Hrest|].
    destruct Hpending as (Hactive & Hone & _); [discriminate|].
    destruct rest; [|discriminate]. clear Hone.
    destruct p as [html|tree links].
    + unfold scan_scrape. destruct (snd (scrapeHtml _ _ _)); simpl;
        intros _; apply Hrest; right; discriminate.
    + destruct (scan_links_cases tree links (checker w))
        as (links' & this2 & c & _ & Ha & Hp & _ & _ & Hcases).
      simpl. destruct Hcases as [[-> _]|[[-> _]|[-> _]]]; simpl.
      * rewrite Ha, Hactive. intros [|]; [discriminate | contradiction].
      * rewrite Ha, Hactive. intros [|]; [discriminate | contradiction].
      * intros _. reflexivity.
  - exact Hrest.
  - exact Hrest.
  - unfold item_done.
    destruct (list_find _ _) as [[k item]|]; [|exact Hrest].
    unfold on_link. destruct (queue_isEmpty _); [|exact Hrest].
    unfold on_end. simpl. destruct (parsed (fields (checker w))); [|exact Hrest].
    intros _. reflexivity.
Qed.

Lemma run_reachable `{Packages} `{Internals} ls w :
  consistent w -> counter_at_rest w ->
  consistent (run ls w) /\ counter_at_rest (run ls w).
Proof.
  revert w. induction ls as [|l ls IH]; intros w Hw Hrest; [split; assumption|].
  apply IH; [apply step_consistent, Hw | apply step_counter_at_rest; assumption].
Qed.

Lemma run_consistent `{Packages} `{Internals} ls w :
  consistent w -> consistent (run ls w).
Proof.
  revert w. induction ls as [|l ls IH]; intros w Hw; [exact Hw|].
  apply IH, step_consistent, Hw.
Qed.

Lemma new_consistent opts : consistent (HtmlChecker_new opts).
Proof.
  unfold consistent, completions, htmls, count_events. simpl.
  repeat split; try discriminate; try tauto; lia.
Qed.

Lemma step_cases `{Packages} `{Internals} l w :
  consistent w ->
  (parsed (fields (checker (step l w))) = parsed (fields (checker w)) /\
   completions (checker (step l w)) = completions (checker w)) \/
  (exists tree links links' this2,
     l = RunReaction /\ promises w = [AwaitLinks tree links] /\
     forEach_mut maybeEnqueueLink links
       (emit (EvHtml tree (robots (fields (checker w)))) (checker w))
       = (links', this2, Normal tt) /\
     completions this2 = completions (checker w) /\
     (checker (step l w) = with_fields (set_parsed true (fields this2)) this2 \/
      checker (step l w) = complete (with_fields (set_parsed true (fields this2)) this2))) \/
  (parsed (fields (checker w)) = true /\
   parsed (fields (checker (step l w))) = false).
Proof.
  intros (Hparsed & Hpending & Hquiet & Hcount).
  destruct l as [html baseUrl rb au| |url cd au| |id isBroken reason]; simpl.
  - left. unfold scan. destruct (active (fields (checker w))); split; reflexivity.
  - destruct (promises w) as [|p rest] eqn:Hpr; [left; split; reflexivity|].
    destruct Hpending as (Hactive & Hone & _); [discriminate|].
    destruct rest; [|discriminate]. clear Hone.
    destruct p as [html|tree links].
    + left. unfold scan_scrape. destruct (snd (scrapeHtml _ _ _)); split; reflexivity.
    + destruct (scan_links_cases tree links (checker w))
        as (links' & this2 & c & Hpass & Ha & Hp & Hc & Hh & Hcases).
      simpl. destruct Hcases as [[-> _]|[[-> ->]|[-> ->]]].
      * left. split; assumption.
      * right. left. exists tree, links, links', this2.
        repeat (split; [first [reflexivity | assumption]|]). left. reflexivity.
      * right. left. exists tree, links, links', this2.
        repeat (split; [first [reflexivity | assumption]|]). right. reflexivity.
  - left. split; reflexivity.
  - left. split; reflexivity.
  - unfold item_done.
    destruct (list_find _ _) as [[k item]|]; [|left; split; reflexivity].
    unfold on_link.
    set (this1 := with_urlChecker _ (emit _ (checker w))).
    assert (H1 : fields this1 = fields (checker w) /\
                 completions this1 = completions (checker w)).
    { unfold this1, completions, count_events. simpl.
      rewrite !filter_app, !length_app. simpl. split; [reflexivity | lia]. }
    destruct H1 as (Hf & Hc). clearbody this1.
    destruct (queue_isEmpty _); [|left; rewrite Hf; split; [reflexivity | exact Hc]].
    unfold on_end. destruct (parsed (fields this1)) eqn:Hp.
    + right. right. rewrite <- Hf. split; [exact Hp | reflexivity].
    + left. rewrite Hp, <- Hf, Hp. split; [reflexivity | exact Hc].
Qed.

(** C8 (as amended).  Completion resets first and emits afterwards: the
    fields of the scan (auth, page URL, robots, exclusion counter, parsed
    flag) are reset and the instance is idle, and then one complete is
    emitted, whose listeners find the instance already reset.  Over any
    run of an instance each html, emitted once per scan ahead of its
    links, is answered by at most one complete, and by exactly one by the
    time the instance is idle again. *)
Theorem complete_resets_then_emits `{Packages} `{Internals} this opts ls :
  (fields (complete this) =
     {| active := false; auth := None; baseUrl := None; excludedLinks := 0;
        linkEnqueued := None; parsed := false; robots := None |} /\
   emitted (complete this) =
     emitted this ++ [ {| em_event := EvComplete; em_fields := fields (complete this) |} ] /\
   completions (complete this) = S (completions this)) /\
  (let w := run ls (HtmlChecker_new opts) in
   (completions (checker w) <= htmls (checker w) <= S (completions (checker w)))%nat /\
   (active (fields (checker w)) = false ->
    completions (checker w) = htmls (checker w))).
Proof.
  split.
  - split; [reflexivity|]. split; [reflexivity|]. apply complete_counts.
  - destruct (run_consistent ls _ (new_consistent opts)) as (_ & _ & Hquiet & Hcount).
    split; [exact Hcount|]. intros Hidle. symmetry. exact (Hquiet Hidle).
Qed.

(** C10.  No complete before the scrape-and-filter pass is over.  The
    listener on the queue's end does nothing unless the parsed flag is up;
    while the flag is up the scan is active and none of its reactions is
    pending; the flag only goes up in the reaction that filters the links,
    after its loop has gone through every link without a throw; and a step
    only emits complete when the flag was up before it, or at the very end
    of that reaction. *)
Theorem no_complete_before_filter_pass `{Packages} `{Internals} opts ls l :
  let w := run ls (HtmlChecker_new opts) in
  let w' := step l w in
  (parsed (fields (checker w)) = false -> on_end (checker w) = checker w) /\
  (parsed (fields (checker w)) = true ->
   active (fields (checker w)) = true /\ promises w = []) /\
  (parsed (fields (checker w)) = false ->
   parsed (fields (checker w')) = true ->
   exists tree links links' this2,
     l = RunReaction /\ promises w = [AwaitLinks tree links] /\
     forEach_mut maybeEnqueueLink links
       (emit (EvHtml tree (robots (fields (checker w)))) (checker w))
       = (links', this2, Normal tt) /\
     checker w' = with_fields (set_parsed true (fields this2)) this2) /\
  (completions (checker w') <> completions (checker w) ->
   parsed (fields (checker w)) = true \/
   exists tree links links' this2,
     l = RunReaction /\ promises w = [AwaitLinks tree links] /\
     forEach_mut maybeEnqueueLink links
       (emit (EvHtml tree (robots (fields (checker w)))) (checker w))
       = (links', this2, Normal tt) /\
     checker w' = complete (with_fields (set_parsed true (fields this2)) this2)).
Proof.
  intros w w'.
  pose proof (run_consistent ls _ (new_consistent opts)) as Hw. fold w in Hw.
  pose proof (step_cases l w Hw) as Hcases. fold w' in Hcases.
  destruct Hw as (Hparsed & _).
  split; [|split; [|split]].
  - unfold on_end. intros ->. reflexivity.
  - intros Hp. destruct (Hparsed Hp) as (Ha & Hnone & _). split; assumption.
  - intros Hdown Hup.
    destruct Hcases as [[Hsame _]|[(tree & links & links' & this2 & Hl & Hpr & Hpass & _ & Hend)|[Hp _]]].
    + congruence.
    + destruct Hend as [Hend|Hend].
      * exists tree, links, links', this2. repeat split; assumption.
      * rewrite Hend in Hup. discriminate.
    + congruence.
  - intros Hnew.
    destruct Hcases as [[_ Hsame]|[(tree & links & links' & this2 & Hl & Hpr & Hpass & Hc & Hend)|[Hp _]]].
    + contradiction.
    + destruct Hend as [Hend|Hend].
      * rewrite Hend in Hnew. contradiction.
      * right. exists tree, links, links', this2. repeat split; assumption.
    + left. exact Hp.
Qed.

(** In the concrete setting an end before the links are filtered changes
    nothing, and the flag goes up in the reaction that filters them. *)
Lemma no_complete_before_filter_pass_witness :
  on_end (checker demo_scraped) = checker demo_scraped /\
  exists tree links links' this2,
    promises demo_scraped = [AwaitLinks tree links] /\
    forEach_mut maybeEnqueueLink links
      (emit (EvHtml tree (robots (fields (checker demo_scraped)))) (checker demo_scraped))
      = (links', this2, Normal tt) /\
    checker demo_draining = with_fields (set_parsed true (fields this2)) this2.
Proof.
  destruct (no_complete_before_filter_pass demo_options [demo_scan; RunReaction] RunReaction)
    as (Hend & _ & Hflag & _).
  split.
  - apply Hend. vm_compute; reflexivity.
  - destruct Hflag as (tree & links & links' & this2 & _ & Hpr & Hpass & Hstep).
    + vm_compute; reflexivity.
    + vm_compute; reflexivity.
    + exists tree, links, links', this2. repeat split; assumption.
Defined.

(** A drain in the middle of a scan completes nothing: the result of the
    check is passed on, no complete is emitted, and the scan stays active
    with its reaction pending. *)
Example early_drain_ignored :
  em_event <$> emitted (checker demo_early_drain) =
    [EvLink (link_break false None (Link_resolve Link_create "http://blc/x" None))] /\
  completions (checker demo_early_drain) = 0%nat /\
  active (fields (checker demo_early_drain)) = true /\
  promises demo_early_drain = [AwaitParse "<html>"].
Proof. vm_compute. repeat split. Qed.

(** Once the scan of the concrete setting is complete the instance is
    idle and has emitted as many completes as htmls. *)
Lemma complete_resets_then_emits_witness :
  active (fields (checker demo_done)) = false /\
  completions (checker demo_done) = htmls (checker demo_done).
Proof.
  pose proof (complete_resets_then_emits (checker demo_draining) demo_options demo_trace)
    as (_ & _ & Hidle).
  assert (Hactive : active (fields (checker demo_done)) = false)
    by (vm_compute; reflexivity).
  exact (conj Hactive (Hidle Hactive)).
Defined.

(** The listeners of complete do not find the fields of the scan: while
    the scan of the concrete setting drains the instance is active, and
    the complete that ends it is emitted with the fields already reset. *)
Lemma complete_order_counterexample :
  active (fields (checker demo_draining)) = true /\
  ~ complete_emits_before_reset (checker demo_draining).
Proof.
  split; [vm_compute; reflexivity|].
  intros [before Hbefore].
  apply (f_equal last) in Hbefore. rewrite last_snoc in Hbefore.
  vm_compute in Hbefore. discriminate.
Qed.

(** ** Offset indices *)

Lemma maybeEnqueueLink_stamp `{Packages} `{Internals} link this link' this' :
  maybeEnqueueLink link this = Normal (link', this') ->
  (excluded link' = Some true /\
   html_offsetIndex link' = Some (excludedLinks (fields this)) /\
   excludedLinks (fields this') = excludedLinks (fields this) + 1) \/
  (excluded link' = Some false /\
   html_offsetIndex link' = Some (html_index link - excludedLinks (fields this)) /\
   excludedLinks (fields this') = excludedLinks (fields this)).
Proof.
  unfold maybeEnqueueLink.
  destruct (maybeExcludeLink this link) as [reason|]; simpl; [|discriminate].
  destruct (negb (jsval_eqb reason JFalse)).
  - intros [= <- <-]. left. repeat split.
  - destruct (fst (UrlChecker_enqueue _ _ _ _)); simpl; intros [= <- <-];
      right; repeat split.
Qed.

Lemma includedLinks_cons link links :
  includedLinks (link :: links) =
    if decide (excluded link = Some false) then link :: includedLinks links
    else includedLinks links.
Proof. unfold includedLinks. rewrite filter_cons. reflexivity. Qed.

Lemma excludedCount_cons link links :
  excludedCount (link :: links) =
    (if decide (excluded link = Some true) then 1 else 0) + excludedCount links.
Proof.
  unfold excludedCount. rewrite filter_cons.
  destruct (decide (excluded link = Some true)); simpl length; lia.
Qed.

Lemma filter_pass_offsets `{Packages} `{Internals} links :
  forall this links' this' (n0 : Z),
  (forall (j : nat) link, links !! j = Some link -> html_index link = n0 + Z.of_nat j) ->
  forEach_mut maybeEnqueueLink links this = (links', this', Normal tt) ->
  let e0 := excludedLinks (fields this) in
  html_offsetIndex <$> includedLinks links' =
    (fun k : nat => Some (n0 - e0 + Z.of_nat k)) <$> seq 0 (length (includedLinks links')) /\
  (forall (j : nat) link', links' !! j = Some link' -> excluded link' = Some true ->
     html_offsetIndex link' = Some (e0 + excludedCount (take j links'))) /\
  Forall (fun link' => excluded link' = Some true \/ excluded link' = Some false) links' /\
  length links' = length links.
Proof.
  induction links as [|link rest IH]; intros this links' this' n0 Hindex; simpl.
  - intros [= <- _]. simpl. repeat split; [|constructor].
    intros j link' Hj. rewrite lookup_nil in Hj. discriminate.
  - destruct (maybeEnqueueLink link this) as [[link1 this1]|e] eqn:Hone; [|discriminate].
    destruct (forEach_mut maybeEnqueueLink rest this1) as [[rest1 this2] c] eqn:Hrest.
    intros [= <- <- ->].
    assert (Hrestindex : forall (j : nat) l, rest !! j = Some l ->
                           html_index l = (n0 + 1) + Z.of_nat j).
    { intros j l Hj. rewrite (Hindex (S j) l Hj). lia. }
    destruct (IH this1 rest1 this2 (n0 + 1) Hrestindex Hrest) as (Hinc & Hexc & Hdec & Hlen).
    pose proof (Hindex 0%nat link eq_refl) as Hhead.
    destruct (maybeEnqueueLink_stamp _ _ _ _ Hone) as [(Hx & Hoff & Hcount)|(Hx & Hoff & Hcount)].
    + (* the head is excluded *)
      split; [|split; [|split]].
      * rewrite includedLinks_cons. rewrite decide_False by congruence.
        rewrite Hinc. apply list_fmap_ext. intros _ k _. f_equal. lia.
      * intros [|j] link' Hj Hexcl; simpl in Hj.
        -- injection Hj as <-. rewrite Hoff. f_equal. unfold excludedCount. simpl. lia.
        -- rewrite (Hexc j link' Hj Hexcl). f_equal. simpl take.
           rewrite excludedCount_cons, decide_True by exact Hx. lia.
      * constructor; [left; exact Hx | exact Hdec].
      * simpl. lia.
    + (* the head is included *)
      split; [|split; [|split]].
      * rewrite includedLinks_cons. rewrite decide_True by exact Hx.
        rewrite fmap_cons. cbn [length seq]. rewrite fmap_cons.
        rewrite Hoff, Hhead. f_equal; [f_equal; lia|].
        rewrite Hinc, <- fmap_S_seq, <- list_fmap_compose.
        apply list_fmap_ext. intros _ k _. simpl. f_equal. lia.
      * intros [|j] link' Hj Hexcl; simpl in Hj.
        -- injection Hj as <-. congruence.
        -- rewrite (Hexc j link' Hj Hexcl). f_equal. simpl take.
           rewrite excludedCount_cons, decide_False by congruence. lia.
      * constructor; [right; exact Hx | exact Hdec].
      * simpl. lia.
Qed.

(** C3.  In every scan, when the scraper has numbered the links 0..N-1 in
    document order, the filter pass leaves each link decided; the offset
    indices of the links it leaves included are exactly 0..K-1 in document
    order, K being their number; and the offset index of an excluded link
    is the count of the exclusions before it.  The scan is any one an
    instance gets to in a run: its links await the pass, and the pass runs
    on the instance as it then is. *)
Theorem offsetIndex_dense `{Packages} `{Internals} opts ls tree links rest links' this' :
  let w := run ls (HtmlChecker_new opts) in
  promises w = AwaitLinks tree links :: rest ->
  (forall (j : nat) link, links !! j = Some link -> html_index link = Z.of_nat j) ->
  forEach_mut maybeEnqueueLink links
    (emit (EvHtml tree (robots (fields (checker w)))) (checker w))
    = (links', this', Normal tt) ->
  length links' = length links /\
  Forall (fun link' => excluded link' = Some true \/ excluded link' = Some false) links' /\
  html_offsetIndex <$> includedLinks links' =
    (fun k : nat => Some (Z.of_nat k)) <$> seq 0 (length (includedLinks links')) /\
  (forall (j : nat) link', links' !! j = Some link' -> excluded link' = Some true ->
     html_offsetIndex link' = Some (excludedCount (take j links'))).
Proof.
  intros w Hpending Hindex Hpass.
  assert (Hzero : excludedLinks (fields (checker w)) = 0).
  { destruct (run_reachable ls (HtmlChecker_new opts)) as [_ Hrest].
    - apply new_consistent.
    - intros _. reflexivity.
    - apply Hrest. right. fold w. rewrite Hpending. discriminate. }
  destruct (filter_pass_offsets links
              (emit (EvHtml tree (robots (fields (checker w)))) (checker w))
              links' this' 0) as (Hinc & Hexc & Hdec & Hlen).
  - intros j link Hj. rewrite (Hindex j link Hj). lia.
  - exact Hpass.
  - cbn [emit fields] in Hinc, Hexc. rewrite Hzero in Hinc, Hexc.
    split; [exact Hlen|]. split; [exact Hdec|]. split.
    + rewrite Hinc. apply list_fmap_ext. intros _ k _. f_equal; lia.
    + intros j link' Hj Hexcl. rewrite (Hexc j link' Hj Hexcl). f_equal; lia.
Qed.

(** In the concrete setting the image is excluded and the two anchors are
    not: their offset indices are 0 and 1. *)
Lemma offsetIndex_dense_witness :
  snd demo_filtered = Normal tt /\
  excluded <$> fst (fst demo_filtered) = [Some false; Some true; Some false] /\
  html_offsetIndex <$> includedLinks (fst (fst demo_filtered)) = [Some 0; Some 1].
Proof.
  split; [vm_compute; reflexivity|]. split; [vm_compute; reflexivity|].
  destruct (offsetIndex_dense demo_options [demo_scan; RunReaction]
              demo_document demo_links []
              (fst (fst demo_filtered)) (snd (fst demo_filtered)))
    as (_ & _ & Hdense & _).
  - vm_compute; reflexivity.
  - intros [|[|[|j]]] link Hj; vm_compute in Hj; [| | |discriminate];
      injection Hj as <-; vm_compute; reflexivity.
  - vm_compute; reflexivity.
  - rewrite Hdense. vm_compute; reflexivity.
Defined.

(** ** More on walks *)

Lemma preorder_at_unfold l n :
  preorder_at l n =
    (l, n) :: match childNodes n with
              | Some cs => preorder_children l cs 0
              | None => []
              end.
Proof.
  destruct n as [name attrs value location [cs|]]; [|reflexivity].
  simpl. f_equal. generalize 0%nat.
  induction cs as [|c rest IH]; intros i; simpl; [reflexivity|].
  f_equal. apply IH.
Qed.

Lemma preorder_unfold n :
  preorder n =
    n :: match childNodes n with
         | Some cs => flat_map preorder cs
         | None => []
         end.
Proof. destruct n; reflexivity. Qed.

Lemma preorder_at_nodes n : forall l, snd <$> preorder_at l n = preorder n.
Proof.
  induction n as [name attrs value location children Hchildren] using node_induction.
  intros l. rewrite preorder_at_unfold, preorder_unfold. cbn [childNodes].
  rewrite fmap_cons. cbn [snd]. f_equal.
  destruct children as [cs|]; [|reflexivity].
  generalize 0%nat.
  induction Hchildren as [|c rest Hc _ IH]; intros i; simpl; [reflexivity|].
  rewrite fmap_app, Hc, IH. reflexivity.
Qed.

Lemma forEach_app {A St : Type} (f : A -> St -> completion St) l1 l2 s :
  forEach f (l1 ++ l2) s = (s1 ← forEach f l1 s; forEach f l2 s1).
Proof.
  revert s. induction l1 as [|x r IH]; intros s; simpl; [reflexivity|].
  destruct (f x s) as [s1|e]; simpl; [apply IH | reflexivity].
Qed.

Lemma forEach_cons {A St : Type} (f : A -> St -> completion St) x r s :
  forEach f (x :: r) s = (s1 ← f x s; forEach f r s1).
Proof. reflexivity. Qed.

Lemma visit_state_eq {St : Type}
    (callback : loc -> node -> St -> completion (St * bool)) l n s :
  visit_state callback (l, n) s =
    match callback l n s with
    | Normal (s1, _) => Normal s1
    | Throw e => Throw e
    end.
Proof.
  unfold visit_state. simpl. destruct (callback l n s) as [[s1 go]|e]; reflexivity.
Qed.

(** A walk whose callback never kills it goes through the nodes in
    document order. *)
Lemma walk_forEach {St : Type} (callback : loc -> node -> St -> completion (St * bool)) :
  (forall l n s s' go, callback l n s = Normal (s', go) -> go = true) ->
  forall n l s,
    walk callback l n s =
      (s' ← forEach (visit_state callback) (preorder_at l n) s; mret (s', true)).
Proof.
  intros Hgo.
  induction n as [name attrs value location children Hchildren] using node_induction.
  intros l s. rewrite walk_unfold, preorder_at_unfold, forEach_cons, visit_state_eq.
  cbn [childNodes].
  destruct (callback l _ s) as [[s1 go]|e] eqn:Hvisit; [|reflexivity].
  rewrite (Hgo _ _ _ _ _ Hvisit). cbn [mbind completion_bind negb].
  destruct children as [cs|]; [|reflexivity].
  clear Hvisit. generalize 0%nat. revert s1.
  induction Hchildren as [|c rest Hc _ IH]; intros s1 i; simpl; [reflexivity|].
  rewrite forEach_app, Hc.
  destruct (forEach (visit_state callback) (preorder_at (i :: l) c) s1) as [s2|e];
    simpl; [apply IH | reflexivity].
Qed.

(** X1.  A walk whose callback never returns false calls it on every node
    of the subtree once, parents before children and siblings in their
    order (document order), handing the state on from one call to the
    next; a throw of the callback ends the walk; otherwise the walk
    returns undefined. *)
Theorem walk_visits_preorder {St : Type}
    (callback : loc -> node -> St -> completion (St * bool)) n l s :
  (forall l n s s' go, callback l n s = Normal (s', go) -> go = true) ->
  walk callback l n s =
    (s' ← forEach (visit_state callback) (preorder_at l n) s; mret (s', true)).
Proof. intros Hgo. apply walk_forEach, Hgo. Qed.

Lemma upTo_app stop a b :
  upTo stop (a ++ b) = upTo stop a ++ (if existsb stop a then [] else upTo stop b).
Proof.
  induction a as [|n a IH]; simpl; [reflexivity|].
  destruct (stop n); simpl; [reflexivity|].
  f_equal. exact IH.
Qed.

Lemma note_until_eq stop l n seen :
  note_until stop l n seen = Normal (seen ++ [n], negb (stop n)).
Proof. reflexivity. Qed.

Lemma walk_children_note_until stop cs :
  Forall (fun n => forall l seen,
            walk (note_until stop) l n seen =
              Normal (seen ++ upTo stop (preorder n),
                      negb (existsb stop (preorder n)))) cs ->
  forall l i seen,
    walk_children (note_until stop) l cs i seen =
      Normal (seen ++ upTo stop (flat_map preorder cs),
              negb (existsb stop (flat_map preorder cs))).
Proof.
  induction 1 as [|c rest Hc _ IH]; intros l i seen; simpl.
  - rewrite app_nil_r. reflexivity.
  - rewrite Hc. simpl. rewrite upTo_app, existsb_app.
    destruct (existsb stop (preorder c)); simpl.
    + rewrite app_nil_r. reflexivity.
    + rewrite IH, <- app_assoc. reflexivity.
Qed.

Lemma walk_note_until stop n :
  forall l seen,
    walk (note_until stop) l n seen =
      Normal (seen ++ upTo stop (preorder n), negb (existsb stop (preorder n))).
Proof.
  induction n as [name attrs value location children Hchildren] using node_induction.
  intros l seen. rewrite walk_unfold, preorder_unfold, note_until_eq.
  cbn [childNodes mbind completion_bind upTo existsb].
  destruct (stop _); cbn [negb orb]; [reflexivity|].
  destruct children as [cs|].
  - rewrite (walk_children_note_until stop cs Hchildren), <- app_assoc. reflexivity.
  - reflexivity.
Qed.

(** X2.  A walk stops at the first node, in document order, at which its
    callback returns false: the callback has been called on the nodes up
    to that one, that one included, and on none after it, and the walk
    returns false; when the callback returns false nowhere the walk goes
    through the whole subtree and returns undefined. *)
Theorem walk_stops_at_first_kill stop l n :
  walk (note_until stop) l n [] =
    Normal (upTo stop (preorder n), negb (existsb stop (preorder n))).
Proof. apply (walk_note_until stop n l []). Qed.

(** The walk of [getText] never kills itself. *)
Lemma getText_visit_goes_on l n s s' go :
  getText_visit l n s = Normal (s', go) -> go = true.
Proof.
  unfold getText_visit. destruct (nodeName n ==? "#text"); intros [= _ <-]; reflexivity.
Qed.

Lemma walk_visits_preorder_witness :
  walk getText_visit [1%nat] demo_root "" = Normal ("hihereme", true).
Proof.
  rewrite (walk_visits_preorder getText_visit demo_root [1%nat] "");
    [vm_compute; reflexivity | exact getText_visit_goes_on].
Defined.

(** ** More on the scraper *)

Lemma findRootNode_from_Some rootNodes :
  forall k l r,
    findRootNode_from rootNodes k = Some (l, r) <->
    exists i : nat,
      l = [(k + i)%nat] /\ rootNodes !! i = Some r /\ childNodes r <> None /\
      forall (j : nat) r', (j < i)%nat -> rootNodes !! j = Some r' -> childNodes r' = None.
Proof.
  induction rootNodes as [|c rest IH]; intros k l r; simpl.
  - split; [discriminate|]. intros (i & _ & Hi & _). discriminate.
  - destruct (childNodes c) as [cs|] eqn:Hc.
    + split.
      * intros [= <- <-]. exists 0%nat. rewrite Nat.add_0_r, Hc.
        repeat split; [discriminate|]. intros j r' Hj. lia.
      * intros ([|i] & -> & Hi & Hhas & Hfirst); simpl in Hi.
        -- injection Hi as ->. rewrite Nat.add_0_r. reflexivity.
        -- specialize (Hfirst 0%nat c (Nat.lt_0_succ i) eq_refl). congruence.
    + rewrite IH. split.
      * intros (i & -> & Hi & Hhas & Hfirst). exists (S i).
        split; [f_equal; lia|]. split; [exact Hi|]. split; [exact Hhas|].
        intros [|j] r' Hj Hr'; simpl in Hr'; [congruence|].
        apply (Hfirst j r'); [lia | exact Hr'].
      * intros ([|i] & -> & Hi & Hhas & Hfirst); simpl in Hi; [congruence|].
        exists i. split; [f_equal; lia|]. split; [exact Hi|]. split; [exact Hhas|].
        intros j r' Hj Hr'. apply (Hfirst (S j) r'); [lia | exact Hr'].
Qed.

Lemma findRootNode_from_None rootNodes :
  forall k,
    findRootNode_from rootNodes k = None <->
    forall r, r ∈ rootNodes -> childNodes r = None.
Proof.
  induction rootNodes as [|c rest IH]; intros k; simpl.
  - split; [|reflexivity]. intros _ r Hr. inversion Hr.
  - destruct (childNodes c) as [cs|] eqn:Hc.
    + split; [discriminate|]. intros Hall.
      specialize (Hall c (list_elem_of_here c rest)). congruence.
    + rewrite IH. split.
      * intros Hall r Hr. inversion Hr; subst; [exact Hc | apply Hall; assumption].
      * intros Hall r Hr. apply Hall. apply list_elem_of_further, Hr.
Qed.

(** X3.  [findRootNode] returns the first child of the document that has
    child nodes of its own, so that doctypes (and whatever else has none)
    in front of it are passed over, and it returns undefined when no child
    has any. *)
Theorem findRootNode_first document rootNodes :
  childNodes document = Some rootNodes ->
  (forall l r,
     findRootNode document = Normal (Some (l, r)) <->
     exists i : nat,
       l = [i] /\ rootNodes !! i = Some r /\ childNodes r <> None /\
       forall (j : nat) r', (j < i)%nat -> rootNodes !! j = Some r' ->
         childNodes r' = None) /\
  (findRootNode document = Normal None <->
   forall r, r ∈ rootNodes -> childNodes r = None).
Proof.
  intros Hdoc. unfold findRootNode. rewrite Hdoc. simpl. split.
  - intros l r. split.
    + intros [= Hfrom]. apply findRootNode_from_Some in Hfrom. exact Hfrom.
    + intros Hfirst. f_equal. apply findRootNode_from_Some. exact Hfirst.
  - split.
    + intros [= Hfrom]. exact (proj1 (findRootNode_from_None rootNodes 0) Hfrom).
    + intros Hall. f_equal. apply (findRootNode_from_None rootNodes 0). exact Hall.
Qed.

Lemma findRootNode_first_witness :
  findRootNode demo_document = Normal (Some ([1%nat], demo_root)).
Proof.
  destruct (findRootNode_first demo_document
              (default [] (childNodes demo_document)) eq_refl) as [Hfirst _].
  apply Hfirst. exists 1%nat.
  split; [reflexivity|]. split; [reflexivity|]. split; [discriminate|].
  intros [|j] r' Hj; [intros [= <-]; reflexivity | lia].
Defined.

(** X4.  On a document none of whose children has child nodes (one that
    holds a doctype only, say) [scrapeHtml] throws a TypeError instead of
    returning no links, and it has fed nothing to the robots collector. *)
Theorem scrapeHtml_without_root `{Packages} `{Internals} document rootNodes pageUrl robots :
  childNodes document = Some rootNodes ->
  (forall r, r ∈ rootNodes -> childNodes r = None) ->
  scrapeHtml document pageUrl robots = (robots, TypeError).
Proof.
  intros Hdoc Hall. unfold scrapeHtml, findRootNode. rewrite Hdoc. simpl.
  rewrite (proj2 (findRootNode_from_None rootNodes 0) Hall). reflexivity.
Qed.

Lemma scrapeHtml_without_root_witness :
  scrapeHtml demo_empty_document None None = (None, TypeError).
Proof.
  apply (scrapeHtml_without_root demo_empty_document [doctype] None None eq_refl).
  intros r Hr. apply list_elem_of_singleton in Hr. subst r. reflexivity.
Defined.

Lemma getNthIndex_loop_bounds parentsChildren :
  forall self i count,
    (i <= self)%nat ->
    count <= getNthIndex_loop parentsChildren self i count
          <= count + Z.of_nat (self - i).
Proof.
  induction parentsChildren as [|c rest IH]; intros self i count Hle; simpl; [lia|].
  destruct (Nat.eqb_spec i self) as [->|Hne]; simpl; [lia|].
  destruct (firstCharIsNot (nodeName c) "#").
  - pose proof (IH self (S i) (count + 1) ltac:(lia)). lia.
  - pose proof (IH self (S i) count ltac:(lia)). lia.
Qed.

(** X5.  The number [getNthIndex] gives the child at position [i] of its
    parent is at least 1 and at most [i + 1]: it counts from one, and
    counts no more siblings than stand before the node.  The document
    itself, which has no parent, makes it throw. *)
Theorem getNthIndex_bounds document i p k :
  getNthIndex document (i :: p) = Normal k ->
  1 <= k <= Z.of_nat i + 1 /\ getNthIndex document [] = TypeError.
Proof.
  unfold getNthIndex.
  destruct (node_at document p) as [parentNode|]; simpl; [|discriminate].
  destruct (childNodes parentNode) as [cs|]; simpl; [|discriminate].
  intros [= <-].
  pose proof (getNthIndex_loop_bounds cs i 0 0 (Nat.le_0_l i)) as Hb.
  rewrite Nat.sub_0_r in Hb. split; [lia | reflexivity].
Qed.

Lemma getNthIndex_bounds_witness :
  getNthIndex demo_document [2; 1; 1]%nat = Normal 2 /\ 1 <= 2 <= Z.of_nat 2 + 1.
Proof.
  assert (Hk : getNthIndex demo_document [2; 1; 1]%nat = Normal 2)
    by (vm_compute; reflexivity).
  split; [exact Hk|].
  exact (proj1 (getNthIndex_bounds demo_document 2 [1; 1]%nat 2 Hk)).
Defined.

Lemma forEach_getText nodes :
  forall text,
    forEach (visit_state getText_visit) nodes text =
      Normal (foldl (fun text n => if nodeName n ==? "#text" then text +:+ value n else text)
                    text (snd <$> nodes)).
Proof.
  induction nodes as [|[l n] rest IH]; intros text; [reflexivity|].
  rewrite forEach_cons, visit_state_eq. unfold getText_visit.
  rewrite fmap_cons. cbn [foldl snd].
  destruct (nodeName n ==? "#text"); simpl; apply IH.
Qed.

(** X6.  [getText] gives null for an element with no child nodes;
    otherwise the values of the text nodes under the element, joined in
    document order and then condensed.  A node without a list of child
    nodes makes it throw. *)
Theorem getText_spec `{Packages} l n :
  getText l n =
    match childNodes n with
    | None => TypeError
    | Some [] => Normal None
    | Some (_ :: _) => Normal (Some (condenseWhitespace (textOf (preorder n))))
    end.
Proof.
  unfold getText.
  destruct (childNodes n) as [[|c cs]|] eqn:Hcs; simpl; try reflexivity.
  rewrite (walk_forEach getText_visit getText_visit_goes_on), forEach_getText.
  simpl. rewrite preorder_at_nodes. reflexivity.
Qed.

Lemma getSelector_name_throw document l n e :
  getSelector_name document l n = Throw e -> e = "TypeError".
Proof.
  unfold getSelector_name. destruct (needsNthChild (nodeName n)); [|discriminate].
  unfold getNthIndex. destruct l as [|self p]; simpl; [intros [= <-]; reflexivity|].
  destruct (node_at document p) as [parentNode|]; simpl; [|intros [= <-]; reflexivity].
  destruct (childNodes parentNode); simpl; [discriminate | intros [= <-]; reflexivity].
Qed.

Lemma getSelector_loop_without_document document l :
  forall selector,
    (forall p n, p `suffix_of` l -> node_at document p = Some n ->
       nodeName n <> "#document") ->
    getSelector_loop document l selector = TypeError.
Proof.
  induction l as [|i p IH]; intros selector Hnone;
    cbn [getSelector_loop].
  - simpl. pose proof (Hnone [] document (suffix_nil []) eq_refl) as Hname.
    apply String.eqb_neq in Hname. rewrite Hname. simpl.
    destruct (getSelector_name document [] document) as [name|e] eqn:Hsel;
      simpl; [reflexivity|].
    rewrite (getSelector_name_throw _ _ _ _ Hsel). reflexivity.
  - destruct (node_at document (i :: p)) as [n|] eqn:Hat; [|reflexivity].
    pose proof (Hnone (i :: p) n ltac:(reflexivity) Hat) as Hname.
    apply String.eqb_neq in Hname.
    cbn [deref mbind completion_bind]. rewrite Hname. cbn [negb].
    destruct (getSelector_name document (i :: p) n) as [name|e] eqn:Hsel;
      cbn [mbind completion_bind].
    + apply IH. intros q m Hq. apply Hnone. apply suffix_cons_r, Hq.
    + rewrite (getSelector_name_throw _ _ _ _ Hsel). reflexivity.
Qed.

(** X7.  [getSelector] relies on the tree being under a node named
    #document: when no node from the element up to the root has that name,
    the walk up runs past the root and throws a TypeError. *)
Theorem getSelector_without_document document l :
  (forall p n, p `suffix_of` l -> node_at document p = Some n ->
     nodeName n <> "#document") ->
  getSelector document l = TypeError.
Proof.
  intros Hnone. unfold getSelector.
  rewrite (getSelector_loop_without_document document l [] Hnone). reflexivity.
Qed.

Lemma getSelector_without_document_witness :
  getSelector demo_fragment [0%nat] = TypeError.
Proof.
  apply getSelector_without_document.
  intros p n Hp Hat.
  assert (Hcases : p = [0%nat] \/ p = []).
  { destruct Hp as [front Hfront].
    destruct front as [|a [|b front]]; simpl in Hfront.
    - left. congruence.
    - right. injection Hfront as _ <-. reflexivity.
    - injection Hfront as _ Hfront. discriminate. }
  destruct Hcases as [-> | ->]; vm_compute in Hat; injection Hat as <-; discriminate.
Defined.

(** ** The candidates *)

Lemma attrMap_from_attrs (attrs : list attr) (name : string) :
  forall m : gmap string string,
    is_Some (m !! name) \/ (exists a, a ∈ attrs /\ attr_name a = name) ->
    is_Some (foldl (fun m a => <[attr_name a := attr_value a]> m) m attrs !! name).
Proof.
  induction attrs as [|a rest IH]; intros m Hin; simpl.
  - destruct Hin as [Hm|(a & Ha & _)]; [exact Hm | inversion Ha].
  - apply IH. destruct Hin as [Hm|(b & Hb & Hname)].
    + left. rewrite lookup_insert_is_Some. destruct (decide (attr_name a = name)); auto.
    + inversion Hb; subst.
      * left. rewrite lookup_insert_eq. eexists; reflexivity.
      * right. exists b. split; [assumption | reflexivity].
Qed.

Lemma attrMap_has n a : a ∈ attrs n -> is_Some (attrMap n !! attr_name a).
Proof.
  intros Ha. unfold attrMap. apply attrMap_from_attrs. right. exists a. split; [exact Ha | reflexivity].
Qed.

Lemma extract_attr `{Packages} n a :
  a ∈ attrs n -> exists e, extract n (attr_name a) = Normal e.
Proof.
  intros Ha. destruct (attrMap_has n a Ha) as [v Hv]. unfold extract.
  destruct (attr_name a ==? "content").
  - destruct (attrMap n !! "http-equiv") as [he|]; [|eexists; reflexivity].
    destruct (toLowerCase he ==? "refresh"); [|eexists; reflexivity].
    rewrite Hv. eexists; reflexivity.
  - destruct (attr_name a ==? "ping"); [rewrite Hv; eexists; reflexivity|].
    destruct (attr_name a ==? "srcset"); rewrite Hv; eexists; reflexivity.
Qed.

Lemma forEach_fmap {A B St : Type} (f : B -> St -> completion St) (g : A -> B) l s :
  forEach f (g <$> l) s = forEach (fun x => f (g x)) l s.
Proof.
  revert s. induction l as [|x r IH]; intros s; simpl; [reflexivity|].
  destruct (f (g x) s); simpl; [apply IH | reflexivity].
Qed.

Lemma findLinks_emit_forEach {St : Type}
    (callback : loc -> node -> string -> string -> St -> completion St)
    l n attrName e s :
  findLinks_emit callback l n attrName e s =
    forEach (call callback) ((fun url => (l, n, attrName, url)) <$> extracted_urls e) s.
Proof.
  destruct e as [|url|urls]; simpl.
  - reflexivity.
  - unfold call. simpl. destruct (callback l n attrName url s); reflexivity.
  - rewrite forEach_fmap. reflexivity.
Qed.

Lemma findLinks_attrs_forEach `{Packages} {St : Type}
    (callback : loc -> node -> string -> string -> St -> completion St)
    l n linkAttrs rest :
  (forall a, a ∈ rest -> a ∈ attrs n) ->
  forall s,
    findLinks_attrs callback l n linkAttrs rest s =
      forEach (call callback)
        ((fun c => (l, n, fst c, snd c)) <$>
           flat_map (fun a =>
                       if truthy (linkAttrs !! attr_name a)
                       then (fun url => (attr_name a, url)) <$> attr_urls n (attr_name a)
                       else [])
                    rest)
        s.
Proof.
  induction rest as [|a rest IH]; intros Hin s; [reflexivity|].
  assert (Hrest : forall b, b ∈ rest -> b ∈ attrs n)
    by (intros b Hb; apply Hin, list_elem_of_further, Hb).
  cbn [findLinks_attrs flat_map].
  destruct (truthy (linkAttrs !! attr_name a)); [|apply (IH Hrest)].
  destruct (extract_attr n a (Hin a (list_elem_of_here a rest))) as [e He].
  unfold attr_urls. rewrite He. cbn [mbind completion_bind].
  rewrite fmap_app, forEach_app, <- list_fmap_compose, findLinks_emit_forEach.
  destruct (forEach (call callback) _ s) as [s1|err]; simpl; [apply (IH Hrest) | reflexivity].
Qed.

Lemma findLinks_visit_goes_on `{Packages} {St : Type}
    (callback : loc -> node -> string -> string -> St -> completion St)
    table l n s s' go :
  findLinks_visit callback table l n s = Normal (s', go) -> go = true.
Proof.
  unfold findLinks_visit. destruct table as [t|]; simpl; [|discriminate].
  destruct (t !! nodeName n) as [linkAttrs|]; [|intros [= _ <-]; reflexivity].
  destruct (findLinks_attrs callback l n linkAttrs (attrs n) s); simpl;
    [intros [= _ <-]; reflexivity | discriminate].
Qed.

Lemma findLinks_visit_forEach `{Packages} {St : Type}
    (callback : loc -> node -> string -> string -> St -> completion St)
    table l n s :
  visit_state (findLinks_visit callback (Some table)) (l, n) s =
    forEach (call callback)
      ((fun c => (l, n, fst c, snd c)) <$> node_candidates table n) s.
Proof.
  rewrite visit_state_eq. unfold findLinks_visit, node_candidates. simpl.
  destruct (table !! nodeName n) as [linkAttrs|]; [|reflexivity].
  rewrite (findLinks_attrs_forEach callback l n linkAttrs (attrs n) (fun a Ha => Ha)).
  destruct (forEach (call callback) _ s); reflexivity.
Qed.

Lemma findLinks_forEach `{Packages} `{Internals} {St : Type}
    (callback : loc -> node -> string -> string -> St -> completion St)
    table rootLoc rootNode s :
  last tags = Some table ->
  findLinks callback rootLoc rootNode s =
    forEach (call callback) (document_candidates table rootLoc rootNode) s.
Proof.
  intros Hlast. unfold findLinks, maxFilterLevel, document_candidates. rewrite Hlast.
  rewrite (walk_forEach _ (findLinks_visit_goes_on callback (Some table))).
  generalize (preorder_at rootLoc rootNode). intros nodes. revert s.
  induction nodes as [|[l n] rest IH]; intros s; [reflexivity|].
  rewrite forEach_cons, findLinks_visit_forEach. cbn [flat_map fst snd].
  rewrite forEach_app.
  destruct (forEach (call callback) _ s) as [s1|e]; [|reflexivity].
  cbn [mbind completion_bind]. specialize (IH s1).
  cbn [mbind completion_bind] in IH. exact IH.
Qed.

(** X8.  [findLinks] calls its callback on the candidates of the document
    and on nothing else: node by node in document order, for a node the
    table of the highest level has, attribute by attribute in the order of
    its attributes, for an attribute that table marks, once per URL
    extracted from it (none for a content that is no refresh, one per
    entry for ping and srcset, one otherwise).  The state goes from one
    call to the next and a throw of the callback ends it. *)
Theorem findLinks_calls `{Packages} `{Internals} {St : Type}
    (callback : loc -> node -> string -> string -> St -> completion St)
    table rootLoc rootNode s :
  last tags = Some table ->
  findLinks callback rootLoc rootNode s =
    forEach (call callback) (document_candidates table rootLoc rootNode) s.
Proof. apply findLinks_forEach. Qed.

Lemma findLinks_calls_witness :
  candidates [1%nat] demo_root =
    Normal ((fun c => (fst (fst (fst c)), snd (fst c), snd c)) <$>
              document_candidates demo_level1 [1%nat] demo_root).
Proof.
  assert (Hlast : last tags = Some demo_level1) by reflexivity.
  unfold candidates.
  rewrite (findLinks_calls record_candidate demo_level1 [1%nat] demo_root [] Hlast).
  vm_compute. reflexivity.
Defined.

Lemma scrapeHtml_callback_adds `{Packages} `{Internals}
    document base pageUrl l n attrName url found found1 :
  scrapeHtml_callback document base pageUrl l n attrName url found = Normal found1 ->
  link_source <$> found1 =
    (link_source <$> found) ++
    [(nodeName n, attrName, Some url, base, Some (stringifyNode n))].
Proof.
  unfold scrapeHtml_callback.
  destruct (getSelector document l) as [selector|e]; simpl; [|discriminate].
  destruct (getText l n) as [text|e]; simpl; [|discriminate].
  intros [= <-]. rewrite fmap_app. reflexivity.
Qed.

Lemma forEach_scrapeHtml_callback `{Packages} `{Internals} document base pageUrl cands :
  forall found links,
    forEach (call (scrapeHtml_callback document base pageUrl)) cands found = Normal links ->
    link_source <$> links =
      (link_source <$> found) ++
      ((fun c => (nodeName (snd (fst (fst c))), snd (fst c), Some (snd c), base,
                  Some (stringifyNode (snd (fst (fst c)))))) <$> cands).
Proof.
  induction cands as [|[[[l n] attrName] url] rest IH]; intros found links.
  - intros [= <-]. rewrite app_nil_r. reflexivity.
  - rewrite forEach_cons.
    destruct (call (scrapeHtml_callback document base pageUrl) (l, n, attrName, url) found)
      as [found1|e] eqn:Hcall; [|discriminate].
    cbn [mbind completion_bind]. intros Hrest.
    rewrite (IH _ _ Hrest), (scrapeHtml_callback_adds _ _ _ _ _ _ _ _ _ Hcall).
    rewrite fmap_cons, <- app_assoc. reflexivity.
Qed.

(** X9.  The links [scrapeHtml] returns are the candidates of the document,
    one link per candidate and in the same order: each carries the name of
    its element, the name of the attribute, the extracted URL as its
    original URL, the opening tag of the element as a string, and, the
    same for all, the base found by the preliminary walk. *)
Theorem scrapeHtml_links_are_candidates `{Packages} `{Internals}
    document pageUrl robots table rootLoc rootNode links :
  last tags = Some table ->
  findRootNode document = Normal (Some (rootLoc, rootNode)) ->
  snd (scrapeHtml document pageUrl robots) = Normal links ->
  link_source <$> links =
    (fun c => (nodeName (snd (fst (fst c))), snd (fst c), Some (snd c),
               firstBaseHref (preorder rootNode),
               Some (stringifyNode (snd (fst (fst c)))))) <$>
      document_candidates table rootLoc rootNode.
Proof.
  intros Hlast Hroot. unfold scrapeHtml. rewrite Hroot. simpl.
  unfold findPreliminaries.
  destruct (walk_base robots rootNode rootLoc None robots)
    as (base & rb & go & -> & -> & _).
  simpl. rewrite foldl_base_step, (findLinks_forEach _ table _ _ _ Hlast).
  intros Hlinks. apply forEach_scrapeHtml_callback in Hlinks. exact Hlinks.
Qed.

Lemma scrapeHtml_links_are_candidates_witness :
  link_source <$> demo_links =
    [("a", "href", Some "", Some "", Some ("<a href=" +:+ dquote +:+ "  " +:+ dquote +:+ ">"));
     ("img", "src", Some "a.png", Some "",
      Some ("<img src=" +:+ dquote +:+ "a.png" +:+ dquote +:+ ">"));
     ("a", "href", Some "mailto:me", Some "",
      Some ("<a href=" +:+ dquote +:+ "mailto:me" +:+ dquote +:+ ">"))].
Proof.
  rewrite (scrapeHtml_links_are_candidates demo_document
             (Some {| href := "http://blc/"; protocol := "http:" |})
             (Some {| robots_userAgent := "blc"; robots_declarations := [] |})
             demo_level1 [1%nat] demo_root demo_links);
    vm_compute; reflexivity.
Defined.

Lemma findPreliminaries_visit_feeds `{Packages} r0 l n base r :
  findPreliminaries_visit (Some r0) l n (base, Some r) =
    Normal ((base_step base n, Some (robots_fed (robots_declares n) r)), true).
Proof.
  assert (Hsame : robots_fed [] r = r).
  { unfold robots_fed. rewrite app_nil_r. destruct r; reflexivity. }
  unfold findPreliminaries_visit, base_step, robots_declares.
  destruct (String.eqb_spec (nodeName n) "base") as [Hbase|Hbase].
  - rewrite Hbase. simpl. rewrite Hsame.
    destruct base as [b|]; [reflexivity|].
    destruct (attrMap n !! "href"); reflexivity.
  - destruct (nodeName n ==? "meta").
    + destruct (attrMap n !! "name") as [nm|], (attrMap n !! "content") as [ct|];
        try destruct ((toLowerCase (trim nm) ==? "robots") || isBot (toLowerCase (trim nm)));
        simpl; rewrite ?Hsame; destruct base; reflexivity.
    + simpl. rewrite Hsame. destruct base; reflexivity.
Qed.

Lemma forEach_findPreliminaries `{Packages} r0 nodes :
  forall base r,
    forEach (visit_state (findPreliminaries_visit (Some r0))) nodes (base, Some r) =
      Normal (foldl base_step base (snd <$> nodes),
              Some (robots_fed (flat_map robots_declares (snd <$> nodes)) r)).
Proof.
  induction nodes as [|[l n] rest IH]; intros base r.
  - simpl. unfold robots_fed. rewrite app_nil_r. destruct r; reflexivity.
  - rewrite forEach_cons, visit_state_eq, findPreliminaries_visit_feeds.
    cbn [mbind completion_bind]. rewrite IH, fmap_cons. cbn [foldl flat_map snd].
    unfold robots_fed. simpl. rewrite app_assoc. reflexivity.
Qed.

(** X10.  The preliminary walk feeds the robots collector every meta
    element of the document, in document order, that has a name and a
    content and whose name, trimmed and in lower case, is robots or the
    name of a robot the collector knows; each is added to what the
    collector held (nothing is replaced), and the walk does not stop at
    the first base.  Without a collector none is made. *)
Theorem findPreliminaries_cascade `{Packages} rootLoc rootNode r :
  findPreliminaries rootLoc rootNode (Some r) =
    Normal (firstBaseHref (preorder rootNode),
            Some (robots_fed (flat_map robots_declares (preorder rootNode)) r)) /\
  findPreliminaries rootLoc rootNode None =
    Normal (firstBaseHref (preorder rootNode), None).
Proof.
  split.
  - unfold findPreliminaries.
    rewrite (walk_forEach (findPreliminaries_visit (Some r))).
    + rewrite forEach_findPreliminaries, preorder_at_nodes, foldl_base_step. reflexivity.
    + intros l n [base [r1|]] s' go.
      * rewrite findPreliminaries_visit_feeds. intros [= _ <-]. reflexivity.
      * unfold findPreliminaries_visit.
        destruct (nodeName n ==? "base"), (nodeName n ==? "meta"), base;
          try destruct (attrMap n !! "href"); simpl; intros [= _ <-]; reflexivity.
  - unfold findPreliminaries.
    destruct (walk (findPreliminaries_visit None) rootLoc rootNode (None, None))
      as [[[base rb] go]|e] eqn:Hwalk.
    + destruct (walk_base None rootNode rootLoc None None)
        as (base' & rb' & go' & Hwalk' & Hbase & _).
      rewrite Hwalk in Hwalk'. injection Hwalk' as <- <- <-.
      assert (Hnone : snd (base, rb) = None).
      { revert Hwalk. apply (walk_keeps (fun s => snd s = None)); [|reflexivity].
        intros l n [b [r1|]] s' go1; [discriminate|]. intros _.
        unfold findPreliminaries_visit.
        destruct (nodeName n ==? "base"), (nodeName n ==? "meta"), b;
          try destruct (attrMap n !! "href"); simpl; intros [= <- _]; reflexivity. }
      simpl in Hnone. subst rb. simpl. rewrite Hbase, foldl_base_step. reflexivity.
    + destruct (walk_base None rootNode rootLoc None None)
        as (base' & rb' & go' & Hwalk' & _). congruence.
Qed.

(** In the page of three declarations the collector gets the first and
    the third, in that order, with their names trimmed and in lower case. *)
Example findPreliminaries_cascade_example :
  findPreliminaries [0%nat] demo_robots_page
    (Some {| robots_userAgent := "blc"; robots_declarations := [("robots", "all")] |}) =
  Normal (Some "/x/",
          Some {| robots_userAgent := "blc";
                  robots_declarations :=
                    [("robots", "all"); ("robots", "noindex"); ("googlebot", "nofollow")] |}).
Proof. vm_compute. reflexivity. Qed.

Lemma scrapeHtml_index_dense_witness : html_index demo_mailto = Z.of_nat 2.
Proof.
  apply (scrapeHtml_index_dense demo_document
           (Some {| href := "http://blc/"; protocol := "http:" |})
           (Some {| robots_userAgent := "blc"; robots_declarations := [] |})
           demo_links);
    vm_compute; reflexivity.
Defined.

(** ** More on the filter pass *)

Lemma maybeExcludeLink_unresolved_witness :
  maybeExcludeLink (checker demo_scraped) demo_unresolved = TypeError.
Proof.
  apply (maybeExcludeLink_unresolved (checker demo_scraped) demo_unresolved demo_level0);
    vm_compute; reflexivity.
Defined.

Lemma maybeExcludeLink_returns `{Packages} `{Internals} this link level :
  opt_tags (options this) !! filterLevel (options this) = Some level ->
  is_Some (url_rebased link) ->
  is_Some (robots (fields this)) ->
  exists reason, maybeExcludeLink this link = Normal reason.
Proof.
  intros Hlevel [u Hu] [r Hr]. unfold maybeExcludeLink, andThen.
  rewrite Hlevel, Hu, Hr. simpl.
  repeat match goal with
         | |- context [if ?c then _ else _] => destruct c; simpl
         end;
    try (eexists; reflexivity);
    destruct (customFilter (options this) link) as [[]|[]];
    eexists; reflexivity.
Qed.

(** What [maybeEnqueueLink] never touches. *)
Lemma maybeEnqueueLink_keeps `{Packages} `{Internals} link this link' this' :
  maybeEnqueueLink link this = Normal (link', this') ->
  options this' = options this /\ robots (fields this') = robots (fields this) /\
  auth (fields this') = auth (fields this).
Proof.
  unfold maybeEnqueueLink.
  destruct (maybeExcludeLink this link) as [reason|]; simpl; [|discriminate].
  destruct (negb (jsval_eqb reason JFalse)); [intros [= _ <-]; repeat split|].
  destruct (fst (UrlChecker_enqueue _ _ _ _)); simpl; intros [= _ <-]; repeat split.
Qed.

Lemma forEach_mut_keeps `{Packages} `{Internals} links :
  forall this links' this' c,
    forEach_mut maybeEnqueueLink links this = (links', this', c) ->
    options this' = options this /\ robots (fields this') = robots (fields this).
Proof.
  induction links as [|link rest IH]; intros this links' this' c; simpl.
  - intros [= _ <- _]. split; reflexivity.
  - destruct (maybeEnqueueLink link this) as [[link1 this1]|e] eqn:Hone.
    + destruct (forEach_mut maybeEnqueueLink rest this1) as [[rest1 this2] c1] eqn:Hrest.
      intros [= _ <- _].
      destruct (maybeEnqueueLink_keeps _ _ _ _ Hone) as (Ho & Hr & _).
      destruct (IH _ _ _ _ Hrest) as [Ho2 Hr2]. split; congruence.
    + intros [= _ <- _]. split; reflexivity.
Qed.

Lemma forEach_mut_returns `{Packages} `{Internals} level links :
  forall this,
    opt_tags (options this) !! filterLevel (options this) = Some level ->
    is_Some (robots (fields this)) ->
    Forall (fun link => is_Some (url_rebased link)) links ->
    exists links' this',
      forEach_mut maybeEnqueueLink links this = (links', this', Normal tt).
Proof.
  induction links as [|link rest IH]; intros this Hlevel Hrobots Hresolved; simpl.
  - eexists _, _. reflexivity.
  - inversion Hresolved as [|? ? Hlink Hrest]; subst.
    destruct (maybeExcludeLink_returns this link level Hlevel Hlink Hrobots) as [reason Hreason].
    destruct (maybeEnqueueLink link this) as [[link1 this1]|e] eqn:Hone.
    + destruct (maybeEnqueueLink_keeps _ _ _ _ Hone) as (Ho & Hr & _).
      destruct (IH this1) as (rest1 & this2 & Hpass); [congruence | congruence | exact Hrest |].
      rewrite Hpass. eexists _, _. reflexivity.
    + unfold maybeEnqueueLink in Hone. rewrite Hreason in Hone. simpl in Hone.
      destruct (negb (jsval_eqb reason JFalse)); [discriminate|].
      destruct (fst (UrlChecker_enqueue _ _ _ _)); discriminate.
Qed.

Lemma scrapeHtml_keeps_collector `{Packages} `{Internals} document pageUrl robots :
  is_Some robots -> is_Some (fst (scrapeHtml document pageUrl robots)).
Proof.
  intros [r ->]. unfold scrapeHtml.
  destruct (root ← findRootNode document; deref root) as [[rootLoc rootNode]|e];
    [|eexists; reflexivity].
  unfold findPreliminaries.
  rewrite (walk_forEach (findPreliminaries_visit (Some r))).
  - rewrite forEach_findPreliminaries. eexists; reflexivity.
  - intros l n [base [r1|]] s' go.
    + rewrite findPreliminaries_visit_feeds. intros [= _ <-]. reflexivity.
    + unfold findPreliminaries_visit.
      destruct (nodeName n ==? "base"), (nodeName n ==? "meta"), base;
        try destruct (attrMap n !! "href"); simpl; intros [= _ <-]; reflexivity.
Qed.

(** Throughout a run the options are those the instance was made with, and
    an active instance has a robots collector. *)
Lemma step_keeps_setting `{Packages} `{Internals} l w :
  (active (fields (checker w)) = true -> is_Some (robots (fields (checker w)))) ->
  options (checker (step l w)) = options (checker w) /\
  (active (fields (checker (step l w))) = true ->
   is_Some (robots (fields (checker (step l w))))).
Proof.
  intros Hrobots.
  destruct l as [html baseUrl rb au| |url cd au| |id isBroken reason]; simpl.
  - unfold scan. destruct (active (fields (checker w))) eqn:Hactive; simpl.
    + split; [reflexivity|]. rewrite Hactive. exact Hrobots.
    + split; [reflexivity|]. intros _. eexists; reflexivity.
  - destruct (promises w) as [|[html|tree links] rest]; [split; [reflexivity | exact Hrobots]| |].
    + unfold scan_scrape.
      assert (Hkept : active (fields (checker w)) = true ->
                      is_Some (fst (scrapeHtml (parseHtml html)
                                      (baseUrl (fields (checker w)))
                                      (robots (fields (checker w))))))
        by (intros Ha; apply scrapeHtml_keeps_collector, Hrobots, Ha).
      destruct (snd (scrapeHtml _ _ _)); simpl; split; try reflexivity; exact Hkept.
    + simpl. unfold scan_links.
      destruct (forEach_mut maybeEnqueueLink links _) as [[links' this2] c] eqn:Hpass.
      destruct (forEach_mut_keeps _ _ _ _ _ Hpass) as [Ho Hr].
      destruct (forEach_mut_same_scan _ _ _ _ _ Hpass) as (Ha & _).
      simpl in Ho, Hr, Ha.
      destruct c as [[]|e].
      * destruct (_ && _); simpl; (split; [exact Ho|]); [discriminate|].
        rewrite Ha, Hr. exact Hrobots.
      * split; [exact Ho|]. rewrite Ha, Hr. exact Hrobots.
  - split; [reflexivity | exact Hrobots].
  - split; [reflexivity | exact Hrobots].
  - unfold item_done.
    destruct (list_find _ _) as [[k item]|]; [|split; [reflexivity | exact Hrobots]].
    unfold on_link. destruct (queue_isEmpty _); [|split; [reflexivity | exact Hrobots]].
    unfold on_end. simpl. destruct (parsed (fields (checker w)));
      split; try reflexivity; [discriminate | exact Hrobots].
Qed.

Lemma run_keeps_setting `{Packages} `{Internals} ls :
  forall w,
    (active (fields (checker w)) = true -> is_Some (robots (fields (checker w)))) ->
    options (checker (run ls w)) = options (checker w) /\
    (active (fields (checker (run ls w))) = true ->
     is_Some (robots (fields (checker (run ls w))))).
Proof.
  induction ls as [|l ls IH]; intros w Hw; [split; [reflexivity | exact Hw]|].
  destruct (step_keeps_setting l w Hw) as [Ho Hr].
  destruct (IH (step l w) Hr) as [Ho2 Hr2]. simpl. split; [congruence | exact Hr2].
Qed.

(** X13.  In any run of an instance, the pass over the links of a scan
    goes through all of them without a throw when the configured filter
    level has a table and every link has a rebased URL: the robots
    collector the rules read is there throughout, so that an unresolved
    URL (or a filter level without a table) is the only way for the pass
    to break off. *)
Theorem filter_pass_returns_on_resolved `{Packages} `{Internals}
    opts ls tree links rest level :
  let w := run ls (HtmlChecker_new opts) in
  promises w = AwaitLinks tree links :: rest ->
  opt_tags opts !! filterLevel opts = Some level ->
  Forall (fun link => is_Some (url_rebased link)) links ->
  exists links' this',
    forEach_mut maybeEnqueueLink links
      (emit (EvHtml tree (robots (fields (checker w)))) (checker w))
      = (links', this', Normal tt).
Proof.
  intros w Hpending Hlevel Hresolved.
  destruct (run_keeps_setting ls (HtmlChecker_new opts)) as [Ho Hr];
    [discriminate|]. fold w in Ho, Hr.
  destruct (run_reachable ls (HtmlChecker_new opts) (new_consistent opts))
    as [(_ & Hwaiting & _) _]; [intros _; reflexivity|]. fold w in Hwaiting.
  destruct Hwaiting as (Hactive & _); [rewrite Hpending; discriminate|].
  apply (forEach_mut_returns level).
  - simpl. rewrite Ho. exact Hlevel.
  - simpl. exact (Hr Hactive).
  - exact Hresolved.
Qed.

Lemma filter_pass_returns_on_resolved_witness :
  exists links' this',
    forEach_mut maybeEnqueueLink demo_links
      (emit (EvHtml demo_document (robots (fields (checker demo_scraped))))
         (checker demo_scraped))
      = (links', this', Normal tt).
Proof.
  apply (filter_pass_returns_on_resolved demo_options [demo_scan; RunReaction]
           demo_document demo_links [] demo_level0).
  - vm_compute; reflexivity.
  - reflexivity.
  - assert (Hall : forallb (fun link => bool_decide (is_Some (url_rebased link))) demo_links = true)
      by (vm_compute; reflexivity).
    apply Forall_forall. intros link Hlink.
    rewrite forallb_forall in Hall. apply list_elem_of_In in Hlink.
    exact (proj1 (bool_decide_eq_true _) (Hall link Hlink)).
Defined.

Lemma jsval_eqb_eq a b : jsval_eqb a b = true <-> a = b.
Proof.
  destruct a as [|s|], b as [|t|]; simpl; split; try discriminate; try reflexivity.
  - intros Heq. apply String.eqb_eq in Heq. congruence.
  - intros [= ->]. apply String.eqb_refl.
Qed.

Lemma events_emit e this : events (emit e this) = events this ++ [e].
Proof. unfold events, emit. simpl. rewrite fmap_app. reflexivity. Qed.

(** X14.  A link the filter chain gives a reason for is not enqueued: it
    is marked excluded with that reason, its offset index is the count of
    the exclusions before it, the count goes up by one, the check queue is
    left as it was, its broken state is not touched, and junk is emitted
    for it, once, with the link as marked. *)
Theorem excluded_link_is_junk `{Packages} `{Internals} this link reason :
  maybeExcludeLink this link = Normal reason ->
  reason <> JFalse ->
  exists link' this',
    maybeEnqueueLink link this = Normal (link', this') /\
    excluded link' = Some true /\
    excludedReason link' = Some reason /\
    html_offsetIndex link' = Some (excludedLinks (fields this)) /\
    broken link' = broken link /\
    excludedLinks (fields this') = excludedLinks (fields this) + 1 /\
    urlChecker this' = urlChecker this /\
    events this' = events this ++ [EvJunk link'].
Proof.
  intros Hreason Hnot. unfold maybeEnqueueLink. rewrite Hreason. simpl.
  destruct (jsval_eqb reason JFalse) eqn:Heq.
  - apply jsval_eqb_eq in Heq. contradiction.
  - simpl. eexists _, _. split; [reflexivity|].
    rewrite events_emit. repeat split.
Qed.

Lemma excluded_link_is_junk_witness :
  exists link' this',
    maybeEnqueueLink demo_image (checker demo_scraped) = Normal (link', this') /\
    excluded link' = Some true /\
    excludedReason link' = Some BLC_HTML /\
    html_offsetIndex link' = Some (excludedLinks (fields (checker demo_scraped))) /\
    broken link' = broken demo_image /\
    excludedLinks (fields this') = excludedLinks (fields (checker demo_scraped)) + 1 /\
    urlChecker this' = urlChecker (checker demo_scraped) /\
    events this' = events (checker demo_scraped) ++ [EvJunk link'].
Proof.
  apply (excluded_link_is_junk (checker demo_scraped) demo_image BLC_HTML).
  - vm_compute; reflexivity.
  - discriminate.
Defined.

(** X15.  A link the filter chain lets through and the queue takes is
    marked not excluded, gets its index less the exclusions so far as
    offset index, and is put at the end of the waiting items under its
    rebased URL, with the authentication of the scan and no custom data;
    nothing is emitted for it and the fields of the scan stay as they
    are. *)
Theorem accepted_link_is_queued `{Packages} `{Internals} this link :
  maybeExcludeLink this link = Normal JFalse ->
  queueAccepts (url_rebased link) = true ->
  exists link' this',
    maybeEnqueueLink link this = Normal (link', this') /\
    excluded link' = Some false /\
    broken link' = broken link /\
    html_offsetIndex link' = Some (html_index link - excludedLinks (fields this)) /\
    fields this' = fields this /\
    emitted this' = emitted this /\
    inFlight (linkQueue (urlChecker this')) = inFlight (linkQueue (urlChecker this)) /\
    queued (linkQueue (urlChecker this')) =
      queued (linkQueue (urlChecker this)) ++
        [ {| item_id := nextId (linkQueue (urlChecker this));
             item_url := url_rebased link;
             item_auth := auth (fields this);
             item_customData := None;
             item_link := link' |} ].
Proof.
  intros Hreason Haccepts. unfold maybeEnqueueLink. rewrite Hreason. simpl.
  unfold UrlChecker_enqueue, RequestQueue_enqueue. simpl. rewrite Haccepts. simpl.
  eexists _, _. split; [reflexivity|]. repeat split.
Qed.

Lemma accepted_link_is_queued_witness :
  exists link' this',
    maybeEnqueueLink demo_anchor (checker demo_scraped) = Normal (link', this') /\
    excluded link' = Some false /\
    broken link' = broken demo_anchor /\
    html_offsetIndex link' =
      Some (html_index demo_anchor - excludedLinks (fields (checker demo_scraped))) /\
    fields this' = fields (checker demo_scraped) /\
    emitted this' = emitted (checker demo_scraped) /\
    inFlight (linkQueue (urlChecker this')) =
      inFlight (linkQueue (urlChecker (checker demo_scraped))) /\
    queued (linkQueue (urlChecker this')) =
      queued (linkQueue (urlChecker (checker demo_scraped))) ++
        [ {| item_id := nextId (linkQueue (urlChecker (checker demo_scraped)));
             item_url := url_rebased demo_anchor;
             item_auth := auth (fields (checker demo_scraped));
             item_customData := None;
             item_link := link' |} ].
Proof.
  apply (accepted_link_is_queued (checker demo_scraped) demo_anchor);
    vm_compute; reflexivity.
Defined.

(** What one call of [maybeEnqueueLink] adds up to. *)
Lemma maybeEnqueueLink_accounts `{Packages} `{Internals} link this link' this' :
  maybeEnqueueLink link this = Normal (link', this') ->
  (junks this' + length (queued (linkQueue (urlChecker this'))) + linkEvents this'
   = S (junks this + length (queued (linkQueue (urlChecker this))) + linkEvents this))%nat /\
  inFlight (linkQueue (urlChecker this')) = inFlight (linkQueue (urlChecker this)) /\
  junks this' = (junks this + if decide (excluded link' = Some true) then 1 else 0)%nat.
Proof.
  unfold maybeEnqueueLink, junks, linkEvents.
  destruct (maybeExcludeLink this link) as [reason|]; simpl; [|discriminate].
  destruct (negb (jsval_eqb reason JFalse)).
  - intros [= <- <-]. rewrite !count_events_emit. simpl.
    repeat split; unfold count_events; simpl; lia.
  - unfold UrlChecker_enqueue, RequestQueue_enqueue.
    destruct (queueAccepts (url_rebased _)); simpl; intros [= <- <-].
    + simpl. rewrite length_app. simpl. repeat split; unfold count_events; simpl; lia.
    + rewrite !count_events_emit. simpl.
      repeat split; unfold count_events; simpl; lia.
Qed.

Lemma forEach_mut_accounts `{Packages} `{Internals} links :
  forall this links' this',
    forEach_mut maybeEnqueueLink links this = (links', this', Normal tt) ->
    (junks this' + length (queued (linkQueue (urlChecker this'))) + linkEvents this'
     = junks this + length (queued (linkQueue (urlChecker this))) + linkEvents this
       + length links)%nat /\
    inFlight (linkQueue (urlChecker this')) = inFlight (linkQueue (urlChecker this)) /\
    Z.of_nat (junks this') = Z.of_nat (junks this) + excludedCount links' /\
    excludedLinks (fields this') = excludedLinks (fields this) + excludedCount links'.
Proof.
  induction links as [|link rest IH]; intros this links' this'; simpl.
  - intros [= <- <-]. unfold excludedCount. simpl. repeat split; lia.
  - destruct (maybeEnqueueLink link this) as [[link1 this1]|e] eqn:Hone; [|discriminate].
    destruct (forEach_mut maybeEnqueueLink rest this1) as [[rest1 this2] c] eqn:Hrest.
    intros [= <- <- ->].
    destruct (maybeEnqueueLink_accounts _ _ _ _ Hone) as (Hsum & Hflight & Hjunk).
    destruct (IH _ _ _ Hrest) as (Hsum2 & Hflight2 & Hjunk2 & Hcount2).
    rewrite excludedCount_cons.
    destruct (maybeEnqueueLink_stamp _ _ _ _ Hone) as [(Hx & _ & Hcount)|(Hx & _ & Hcount)].
    + rewrite decide_True in Hjunk by exact Hx. rewrite decide_True by exact Hx.
      repeat split; [lia | congruence | lia | lia].
    + rewrite decide_False in Hjunk by congruence. rewrite decide_False by congruence.
      repeat split; [lia | congruence | lia | lia].
Qed.

(** X16.  A filter pass that goes through accounts for every link once:
    the junk emissions, the waiting items of the queue and the link
    emissions together grow by the number of links; the junk emissions and
    the exclusion counter both grow by the number of links left excluded;
    and nothing is started or taken out of flight. *)
Theorem filter_pass_accounts `{Packages} `{Internals} links this links' this' :
  forEach_mut maybeEnqueueLink links this = (links', this', Normal tt) ->
  (junks this' + length (queued (linkQueue (urlChecker this'))) + linkEvents this'
   = junks this + length (queued (linkQueue (urlChecker this))) + linkEvents this
     + length links)%nat /\
  inFlight (linkQueue (urlChecker this')) = inFlight (linkQueue (urlChecker this)) /\
  Z.of_nat (junks this') = Z.of_nat (junks this) + excludedCount links' /\
  excludedLinks (fields this') = excludedLinks (fields this) + excludedCount links'.
Proof. apply forEach_mut_accounts. Qed.

Lemma filter_pass_accounts_witness :
  let this := emit (EvHtml demo_document (robots (fields (checker demo_scraped))))
                (checker demo_scraped) in
  let links' := fst (fst demo_filtered) in
  let this' := snd (fst demo_filtered) in
  (junks this' + length (queued (linkQueue (urlChecker this'))) + linkEvents this'
   = junks this + length (queued (linkQueue (urlChecker this))) + linkEvents this
     + length demo_links)%nat /\
  inFlight (linkQueue (urlChecker this')) = inFlight (linkQueue (urlChecker this)) /\
  Z.of_nat (junks this') = Z.of_nat (junks this) + excludedCount links' /\
  excludedLinks (fields this') = excludedLinks (fields this) + excludedCount links'.
Proof.
  intros this links' this'.
  apply (filter_pass_accounts demo_links this links' this').
  vm_compute; reflexivity.
Defined.

(** A call that leaves its link excluded only emits junk for it. *)
Lemma maybeEnqueueLink_excluded_only `{Packages} `{Internals} link this link' this' :
  maybeEnqueueLink link this = Normal (link', this') ->
  excluded link' <> Some false ->
  urlChecker this' = urlChecker this /\ events this' = events this ++ [EvJunk link'].
Proof.
  unfold maybeEnqueueLink.
  destruct (maybeExcludeLink this link) as [reason|]; simpl; [|discriminate].
  destruct (negb (jsval_eqb reason JFalse)).
  - intros [= <- <-] _. rewrite events_emit. split; reflexivity.
  - destruct (fst (UrlChecker_enqueue _ _ _ _)); simpl; intros [= <- <-] Hnot;
      exfalso; apply Hnot; reflexivity.
Qed.

Lemma forEach_mut_excluded_only `{Packages} `{Internals} links :
  forall this links' this',
    forEach_mut maybeEnqueueLink links this = (links', this', Normal tt) ->
    includedLinks links' = [] ->
    urlChecker this' = urlChecker this /\
    events this' = events this ++ (EvJunk <$> links').
Proof.
  induction links as [|link rest IH]; intros this links' this'; simpl.
  - intros [= <- <-] _. simpl. rewrite app_nil_r. split; reflexivity.
  - destruct (maybeEnqueueLink link this) as [[link1 this1]|e] eqn:Hone; [|discriminate].
    destruct (forEach_mut maybeEnqueueLink rest this1) as [[rest1 this2] c] eqn:Hrest.
    intros [= <- <- ->] Hnone.
    rewrite includedLinks_cons in Hnone.
    destruct (decide (excluded link1 = Some false)) as [|Hnot]; [discriminate|].
    destruct (maybeEnqueueLink_excluded_only _ _ _ _ Hone Hnot) as [Hu He].
    destruct (IH _ _ _ Hrest Hnone) as [Hu2 He2].
    split; [congruence|].
    rewrite He2, He, fmap_cons, <- app_assoc. reflexivity.
Qed.

Lemma queue_isEmpty_counts u :
  queue_isEmpty (linkQueue u) = true ->
  (numActiveLinks u =? 0)%Z && (numQueuedLinks u =? 0)%Z = true.
Proof.
  unfold queue_isEmpty, numActiveLinks, numQueuedLinks.
  destruct (inFlight (linkQueue u)); [|discriminate].
  destruct (queued (linkQueue u)); [reflexivity | discriminate].
Qed.

(** X17.  A scan none of whose links is left included (a page without
    links among them) completes in the reaction that filters them, when
    the queue is empty: what the instance emits there is html, then junk
    for each link in the order of the scraper, then complete, and the
    fields are reset. *)
Theorem scan_without_checks_completes `{Packages} `{Internals}
    tree links this links' this2 :
  queue_isEmpty (linkQueue (urlChecker this)) = true ->
  forEach_mut maybeEnqueueLink links (emit (EvHtml tree (robots (fields this))) this)
    = (links', this2, Normal tt) ->
  includedLinks links' = [] ->
  events (scan_links tree links this) =
    events this ++ EvHtml tree (robots (fields this)) :: (EvJunk <$> links') ++ [EvComplete] /\
  fields (scan_links tree links this) = reset_fields /\
  urlChecker (scan_links tree links this) = urlChecker this.
Proof.
  intros Hempty Hpass Hnone. unfold scan_links. rewrite Hpass.
  destruct (forEach_mut_excluded_only _ _ _ _ Hpass Hnone) as [Hu He].
  simpl in Hu. simpl urlChecker. rewrite Hu, (queue_isEmpty_counts _ Hempty).
  unfold complete. rewrite events_emit. unfold events at 1. simpl.
  fold (events this2). rewrite He, events_emit, <- !app_assoc. simpl.
  repeat split. exact Hu.
Qed.

Lemma scan_without_checks_completes_witness :
  let links' := fst (fst (forEach_mut maybeEnqueueLink demo_links
                            (emit (EvHtml demo_document (robots (fields demo_strict)))
                               demo_strict))) in
  events (scan_links demo_document demo_links demo_strict) =
    events demo_strict ++
      EvHtml demo_document (robots (fields demo_strict)) :: (EvJunk <$> links') ++ [EvComplete] /\
  fields (scan_links demo_document demo_links demo_strict) = reset_fields /\
  urlChecker (scan_links demo_document demo_links demo_strict) = urlChecker demo_strict.
Proof.
  intros links'.
  apply (scan_without_checks_completes demo_document demo_links demo_strict links'
           (snd (fst (forEach_mut maybeEnqueueLink demo_links
                        (emit (EvHtml demo_document (robots (fields demo_strict)))
                           demo_strict)))));
    vm_compute; reflexivity.
Defined.

(** ** More on completion *)

(** X18.  The check that drains the queue of a scan whose links have been
    filtered ends the scan: the instance emits link with the result and
    then complete, in that order and nothing else, and its fields are
    reset; the item is gone from the queue. *)
Theorem last_check_completes this id k item isBroken reason :
  list_find (fun item => item_id item = id) (inFlight (linkQueue (urlChecker this)))
    = Some (k, item) ->
  queue_isEmpty (queue_remove id (linkQueue (urlChecker this))) = true ->
  parsed (fields this) = true ->
  events (item_done id isBroken reason this) =
    events this ++ [EvLink (link_break isBroken reason (item_link item)); EvComplete] /\
  fields (item_done id isBroken reason this) = reset_fields /\
  linkQueue (urlChecker (item_done id isBroken reason this)) =
    queue_remove id (linkQueue (urlChecker this)).
Proof.
  intros Hfind Hempty Hparsed. unfold item_done. rewrite Hfind.
  unfold on_link. simpl. rewrite Hempty. unfold on_end. simpl. rewrite Hparsed.
  unfold complete. rewrite events_emit. unfold events. simpl.
  rewrite fmap_app, <- app_assoc. repeat split.
Qed.

Lemma last_check_completes_witness :
  exists item,
    events (item_done 0 false None (checker demo_checking)) =
      events (checker demo_checking)
        ++ [EvLink (link_break false None (item_link item)); EvComplete] /\
    fields (item_done 0 false None (checker demo_checking)) = reset_fields.
Proof.
  destruct (list_find (fun item => item_id item = 0)
              (inFlight (linkQueue (urlChecker (checker demo_checking)))))
    as [[k item]|] eqn:Hfind; [|vm_compute in Hfind; discriminate].
  exists item.
  destruct (last_check_completes (checker demo_checking) 0 k item false None Hfind)
    as (He & Hf & _); [vm_compute; reflexivity | vm_compute; reflexivity |].
  split; [exact He | exact Hf].
Defined.

(** X19.  One scan at a time: at any moment of any run of an instance, at
    most one reaction of a scan is pending, the completes emitted are as
    many as the htmls or one less, and they are as many whenever the
    instance is idle or a reaction is pending. *)
Theorem one_scan_at_a_time `{Packages} `{Internals} opts ls :
  let w := run ls (HtmlChecker_new opts) in
  (length (promises w) <= 1)%nat /\
  (completions (checker w) <= htmls (checker w) <= S (completions (checker w)))%nat /\
  (active (fields (checker w)) = false \/ promises w <> [] ->
   htmls (checker w) = completions (checker w)).
Proof.
  intros w.
  pose proof (run_consistent ls (HtmlChecker_new opts) (new_consistent opts))
    as (_ & Hpending & Hidle & Hcount). fold w in Hpending, Hidle, Hcount.
  split; [|split; [exact Hcount|]].
  - destruct (promises w) as [|p rest] eqn:Hp; [simpl; lia|].
    destruct Hpending as (_ & Hone & _); [discriminate|]. rewrite Hone. lia.
  - intros [Hquiet|Hwaiting]; [exact (Hidle Hquiet)|].
    destruct (Hpending Hwaiting) as (_ & _ & Heq). exact Heq.
Qed.

(** X20.  Every scan starts counting its exclusions at zero: at any moment
    of any run of an instance, the exclusion counter is 0 when the
    instance is idle and while a reaction of a scan is pending, whatever
    the scans before have excluded. *)
Theorem exclusions_counted_per_scan `{Packages} `{Internals} opts ls :
  let w := run ls (HtmlChecker_new opts) in
  active (fields (checker w)) = false \/ promises w <> [] ->
  excludedLinks (fields (checker w)) = 0.
Proof.
  intros w.
  destruct (run_reachable ls (HtmlChecker_new opts) (new_consistent opts)) as [_ Hrest];
    [intros _; reflexivity|].
  exact Hrest.
Qed.

Lemma exclusions_counted_per_scan_witness :
  excludedLinks (fields (checker demo_done)) = 0.
Proof.
  apply (exclusions_counted_per_scan demo_options demo_trace).
  left. vm_compute; reflexivity.
Defined.

Lemma completions_with_urlChecker u this :
  completions (with_urlChecker u this) = completions this.
Proof. reflexivity. Qed.

Lemma step_stuck `{Packages} `{Internals} l w :
  stuck w ->
  stuck (step l w) /\ completions (checker (step l w)) = completions (checker w).
Proof.
  intros (Hactive & Hparsed & Hnone).
  destruct l as [html baseUrl rb au| |url cd au| |id isBroken reason]; simpl.
  - unfold scan. rewrite Hactive. simpl. repeat split; assumption.
  - rewrite Hnone. repeat split; assumption.
  - repeat split; assumption.
  - repeat split; assumption.
  - unfold item_done.
    destruct (list_find _ _) as [[k item]|]; [|repeat split; assumption].
    unfold on_link, on_end. simpl. rewrite Hparsed.
    assert (Hsame : forall u,
               completions (with_urlChecker u (emit (EvLink (link_break isBroken reason
                                                              (item_link item))) (checker w)))
               = completions (checker w)).
    { intros u. rewrite completions_with_urlChecker. unfold completions.
      rewrite count_events_emit. simpl. lia. }
    destruct (queue_isEmpty _); (split; [repeat split; assumption | apply Hsame]).
Qed.

Lemma run_stuck `{Packages} `{Internals} ls :
  forall w, stuck w ->
            stuck (run ls w) /\ completions (checker (run ls w)) = completions (checker w).
Proof.
  induction ls as [|l ls IH]; intros w Hw; [split; [exact Hw | reflexivity]|].
  destruct (step_stuck l w Hw) as [Hs Hc].
  destruct (IH (step l w) Hs) as [Hs2 Hc2]. simpl. split; [exact Hs2 | congruence].
Qed.

Lemma step_stuck_htmls `{Packages} `{Internals} l w :
  stuck w -> htmls (checker (step l w)) = htmls (checker w).
Proof.
  intros (Hactive & Hparsed & Hnone).
  destruct l as [html baseUrl rb au| |url cd au| |id isBroken reason]; simpl.
  - unfold scan. rewrite Hactive. reflexivity.
  - rewrite Hnone. reflexivity.
  - reflexivity.
  - reflexivity.
  - unfold item_done.
    destruct (list_find _ _) as [[k item]|]; [|reflexivity].
    unfold on_link, on_end. simpl. rewrite Hparsed.
    assert (Hsame : forall u,
               htmls (with_urlChecker u (emit (EvLink (link_break isBroken reason
                                                         (item_link item))) (checker w)))
               = htmls (checker w)).
    { intros u. change (htmls (with_urlChecker u ?t)) with (htmls t). unfold htmls.
      rewrite count_events_emit. simpl. lia. }
    destruct (queue_isEmpty _); apply Hsame.
Qed.

Lemma run_stuck_htmls `{Packages} `{Internals} ls :
  forall w, stuck w ->
            stuck (run ls w) /\
            completions (checker (run ls w)) = completions (checker w) /\
            htmls (checker (run ls w)) = htmls (checker w).
Proof.
  induction ls as [|l ls IH]; intros w Hw; [repeat split; apply Hw|].
  destruct (step_stuck l w Hw) as [Hs Hc].
  pose proof (step_stuck_htmls l w Hw) as Hh.
  destruct (IH (step l w) Hs) as (Hs2 & Hc2 & Hh2). simpl.
  split; [exact Hs2|]. split; congruence.
Qed.

Lemma stuck_refuses `{Internals} w html baseUrl robots auth :
  stuck w -> scan html baseUrl robots auth w = (false, w).
Proof. intros (Hactive & _). unfold scan. rewrite Hactive. reflexivity. Qed.

(** X21.  A filter pass that throws hangs the scan: in any run of an
    instance, when the pass over the links of a scan breaks off with a
    throw (at a link whose URL did not resolve, or for a filter level
    without a table), then whatever happens to the instance afterwards it
    stays active, emits no complete, and refuses every further scan. *)
Theorem aborted_pass_hangs_scan `{Packages} `{Internals}
    opts ls tree links rest e ls' html url rb au :
  let w := run ls (HtmlChecker_new opts) in
  promises w = AwaitLinks tree links :: rest ->
  snd (forEach_mut maybeEnqueueLink links
         (emit (EvHtml tree (robots (fields (checker w)))) (checker w)))
    = Throw e ->
  let w' := run ls' (step RunReaction w) in
  active (fields (checker w')) = true /\
  completions (checker w') = completions (checker w) /\
  scan html url rb au w' = (false, w').
Proof.
  intros w Hpending Hthrow w'.
  pose proof (run_consistent ls (HtmlChecker_new opts) (new_consistent opts))
    as (Hparsed & Hwaiting & _). fold w in Hparsed, Hwaiting.
  destruct Hwaiting as (Hactive & Hone & _); [rewrite Hpending; discriminate|].
  rewrite Hpending in Hone. destruct rest; [|discriminate]. clear Hone.
  assert (Hnot : parsed (fields (checker w)) = false).
  { destruct (parsed (fields (checker w))); [|reflexivity].
    destruct Hparsed as (_ & Hnone & _); [reflexivity | congruence]. }
  assert (Hstuck : stuck (step RunReaction w) /\
                   completions (checker (step RunReaction w)) = completions (checker w)).
  { simpl. rewrite Hpending. unfold scan_links.
    destruct (forEach_mut maybeEnqueueLink links _) as [[links' this2] c] eqn:Hpass.
    simpl in Hthrow. subst c.
    destruct (forEach_mut_same_scan _ _ _ _ _ Hpass) as (Ha & Hp & Hc & _).
    simpl in Ha, Hp. unfold completions in Hc. rewrite count_events_emit in Hc.
    simpl in Hc. unfold stuck. simpl. repeat split; try congruence.
    unfold completions. lia. }
  destruct Hstuck as [Hstuck Hc].
  destruct (run_stuck ls' _ Hstuck) as [Hstuck' Hc']. fold w' in Hstuck', Hc'.
  split; [apply Hstuck'|]. split; [congruence|]. apply stuck_refuses, Hstuck'.
Qed.

Lemma aborted_pass_hangs_scan_witness :
  let w := run [demo_scan; RunReaction] (HtmlChecker_new demo_no_level) in
  let w' := run [demo_scan; RunReaction; QueueStart] (step RunReaction w) in
  active (fields (checker w')) = true /\
  completions (checker w') = completions (checker w) /\
  scan "<html>" "http://blc/" None None w' = (false, w').
Proof.
  apply (aborted_pass_hangs_scan demo_no_level [demo_scan; RunReaction]
           demo_document demo_links [] "TypeError"
           [demo_scan; RunReaction; QueueStart] "<html>" "http://blc/" None None);
    vm_compute; reflexivity.
Defined.

(** X22.  A scrape that throws hangs the scan as well: in any run of an
    instance, when scraping the parsed document of a scan throws (a
    document without a root element, say), the links are never filtered,
    and whatever happens to the instance afterwards it stays active, emits
    no complete, and refuses every further scan. *)
Theorem aborted_scrape_hangs_scan `{Packages} `{Internals}
    opts ls page rest e ls' html url rb au :
  let w := run ls (HtmlChecker_new opts) in
  promises w = AwaitParse page :: rest ->
  snd (scrapeHtml (parseHtml page) (baseUrl (fields (checker w)))
         (robots (fields (checker w)))) = Throw e ->
  let w' := run ls' (step RunReaction w) in
  active (fields (checker w')) = true /\
  completions (checker w') = completions (checker w) /\
  htmls (checker w') = htmls (checker w) /\
  scan html url rb au w' = (false, w').
Proof.
  intros w Hpending Hthrow w'.
  pose proof (run_consistent ls (HtmlChecker_new opts) (new_consistent opts))
    as (Hparsed & Hwaiting & _). fold w in Hparsed, Hwaiting.
  destruct Hwaiting as (Hactive & Hone & _); [rewrite Hpending; discriminate|].
  rewrite Hpending in Hone. destruct rest; [|discriminate]. clear Hone.
  assert (Hnot : parsed (fields (checker w)) = false).
  { destruct (parsed (fields (checker w))); [|reflexivity].
    destruct Hparsed as (_ & Hnone & _); [reflexivity | congruence]. }
  assert (Hstuck : stuck (step RunReaction w) /\
                   completions (checker (step RunReaction w)) = completions (checker w) /\
                   htmls (checker (step RunReaction w)) = htmls (checker w)).
  { simpl. rewrite Hpending. unfold scan_scrape. rewrite Hthrow. simpl.
    unfold stuck. simpl. repeat split; assumption. }
  destruct Hstuck as (Hstuck & Hc & Hh).
  destruct (run_stuck_htmls ls' _ Hstuck) as (Hstuck' & Hc' & Hh').
  fold w' in Hstuck', Hc', Hh'.
  split; [apply Hstuck'|]. repeat split; [congruence | congruence |].
  apply stuck_refuses, Hstuck'.
Qed.

Lemma aborted_scrape_hangs_scan_witness :
  let w := @run demo_packages demo_internals_empty [demo_scan]
             (HtmlChecker_new demo_options) in
  let w' := @run demo_packages demo_internals_empty [demo_scan; RunReaction; QueueStart]
              (@step demo_packages demo_internals_empty RunReaction w) in
  active (fields (checker w')) = true /\
  completions (checker w') = completions (checker w) /\
  htmls (checker w') = htmls (checker w) /\
  @scan demo_internals_empty "<html>" "http://blc/" None None w' = (false, w').
Proof.
  apply (@aborted_scrape_hangs_scan demo_packages demo_internals_empty
           demo_options [demo_scan] "<html>" [] "TypeError"
           [demo_scan; RunReaction; QueueStart] "<html>" "http://blc/" None None);
    vm_compute; reflexivity.
Defined.

(** ** The filter level *)

Lemma document_candidates_in_table `{Packages} table rootLoc rootNode c :
  c ∈ document_candidates table rootLoc rootNode ->
  exists linkAttrs,
    table !! nodeName (snd (fst (fst c))) = Some linkAttrs /\
    truthy (linkAttrs !! snd (fst c)) = true.
Proof.
  unfold document_candidates. rewrite list_elem_of_In, in_flat_map.
  intros ([l n] & _ & Hin). cbn [fst snd] in Hin.
  apply list_elem_of_In, list_elem_of_fmap in Hin as ([attrName url] & -> & Hin).
  cbn [fst snd]. unfold node_candidates in Hin.
  destruct (table !! nodeName n) as [linkAttrs|]; [|inversion Hin].
  exists linkAttrs. split; [reflexivity|].
  apply list_elem_of_In, in_flat_map in Hin as (a & _ & Hin).
  destruct (truthy (linkAttrs !! attr_name a)) eqn:Hmarked; [|inversion Hin].
  apply list_elem_of_In, list_elem_of_fmap in Hin as (u & [= -> _] & _). exact Hmarked.
Qed.

(** The links do not depend on the collector either. *)
Lemma scrapeHtml_links_any_collector `{Packages} `{Internals} document pageUrl robots robots' :
  snd (scrapeHtml document pageUrl robots) = snd (scrapeHtml document pageUrl robots').
Proof.
  unfold scrapeHtml.
  destruct (root ← findRootNode document; deref root) as [[rootLoc rootNode]|e];
    [|reflexivity].
  unfold findPreliminaries.
  destruct (walk_base robots rootNode rootLoc None robots)
    as (base & rb & go & -> & -> & _).
  destruct (walk_base robots' rootNode rootLoc None robots')
    as (base' & rb' & go' & -> & -> & _).
  reflexivity.
Qed.

(** C2 (as amended).  The scraper looks every element up in the table of
    the highest filter level, whatever level is configured: the links it
    returns are, in order, the candidates that table gives; an element the
    table does not have gives none, so that every link is of an element
    and an attribute the table has.  The configured level plays no part in
    it: the links a scan gets from the scraper are the same for any two
    instances scanning with the same page URL, whatever their options.
    The configured level comes in afterwards: the first exclusion rule of
    the orchestrator excludes a link whose element or attribute the table
    of that level does not have, with the reason unsupported-html-location
    (BLC_HTML), and the link is reported as junk. *)
Theorem scraper_uses_highest_level `{Packages} `{Internals}
    document pageUrl collector table rootLoc rootNode links :
  last tags = Some table ->
  findRootNode document = Normal (Some (rootLoc, rootNode)) ->
  snd (scrapeHtml document pageUrl collector) = Normal links ->
  link_source <$> links =
    (fun c => (nodeName (snd (fst (fst c))), snd (fst c), Some (snd c),
               firstBaseHref (preorder rootNode),
               Some (stringifyNode (snd (fst (fst c)))))) <$>
      document_candidates table rootLoc rootNode /\
  (forall n, table !! nodeName n = None -> node_candidates table n = []) /\
  (forall link, link ∈ links ->
     exists linkAttrs,
       table !! html_tagName link = Some linkAttrs /\
       truthy (linkAttrs !! html_attrName link) = true) /\
  (forall html this this',
     baseUrl (fields this) = baseUrl (fields this') ->
     snd (scan_scrape html this) = snd (scan_scrape html this')) /\
  (forall this link level,
     opt_tags (options this) !! filterLevel (options this) = Some level ->
     unsupportedLocation (level !! html_tagName link) (html_attrName link) = true ->
     maybeExcludeLink this link = Normal BLC_HTML /\
     exists link' this',
       maybeEnqueueLink link this = Normal (link', this') /\
       excluded link' = Some true /\
       excludedReason link' = Some BLC_HTML /\
       events this' = events this ++ [EvJunk link']).
Proof.
  intros Hlast Hroot Hlinks.
  assert (Hcands : link_source <$> links =
            (fun c => (nodeName (snd (fst (fst c))), snd (fst c), Some (snd c),
                       firstBaseHref (preorder rootNode),
                       Some (stringifyNode (snd (fst (fst c)))))) <$>
              document_candidates table rootLoc rootNode).
  { revert Hlinks. unfold scrapeHtml. rewrite Hroot. simpl.
    unfold findPreliminaries.
    destruct (walk_base collector rootNode rootLoc None collector)
      as (base & rb & go & -> & -> & _).
    simpl. rewrite foldl_base_step, (findLinks_forEach _ table _ _ _ Hlast).
    intros Hlinks. apply forEach_scrapeHtml_callback in Hlinks. exact Hlinks. }
  split; [exact Hcands|]. split; [|split; [|split]].
  - intros n Hnone. unfold node_candidates. rewrite Hnone. reflexivity.
  - intros link Hlink.
    apply (list_elem_of_fmap_2 link_source) in Hlink. rewrite Hcands in Hlink.
    apply list_elem_of_fmap in Hlink as (c & Hsource & Hc).
    destruct (document_candidates_in_table _ _ _ _ Hc) as (linkAttrs & Htable & Hmarked).
    unfold link_source in Hsource. injection Hsource as Htag Hattr _ _ _.
    exists linkAttrs. rewrite Htag, Hattr. split; assumption.
  - intros html this this' Hpage. unfold scan_scrape. cbn [snd]. rewrite Hpage.
    rewrite (scrapeHtml_links_any_collector _ _ (robots (fields this))
               (robots (fields this'))).
    destruct (snd (scrapeHtml (parseHtml html) _ _)); reflexivity.
  - intros this link level Hlevel Hunsupported.
    assert (Hrule : maybeExcludeLink this link = Normal BLC_HTML).
    { unfold maybeExcludeLink. rewrite Hlevel. simpl. rewrite Hunsupported. reflexivity. }
    split; [exact Hrule|].
    unfold maybeEnqueueLink. rewrite Hrule. simpl.
    eexists _, _. split; [reflexivity|]. rewrite events_emit. repeat split.
Qed.

(** With level 0 configured, which has anchors only, the scraper still
    returns the link of the image of the page, and the orchestrator
    excludes it. *)
Lemma scraper_uses_highest_level_witness :
  (fun link => (html_tagName link, html_attrName link)) <$> demo_links
    = [("a", "href"); ("img", "src"); ("a", "href")] /\
  maybeExcludeLink (checker demo_scraped) demo_image = Normal BLC_HTML.
Proof.
  assert (Hlast : last tags = Some demo_level1) by reflexivity.
  destruct (scraper_uses_highest_level demo_document
              (Some {| href := "http://blc/"; protocol := "http:" |})
              (Some {| robots_userAgent := "blc"; robots_declarations := [] |})
              demo_level1 [1%nat] demo_root demo_links Hlast)
    as (_ & _ & _ & _ & Hrule); [vm_compute; reflexivity | vm_compute; reflexivity |].
  split; [vm_compute; reflexivity|].
  apply (Hrule (checker demo_scraped) demo_image demo_level0); vm_compute; reflexivity.
Defined.

(** ** A URL that does not resolve *)

(** C6.  The scan of a page whose first link has a URL that does not
    resolve: the link is not excluded by any rule, yet no link
    notification is emitted for it, with the reason BLC_INVALID or any
    other.  The filter pass throws a TypeError at it; the reaction emits
    html and nothing else; the link after it, whose URL resolved, is not
    filtered and not enqueued; and whatever happens afterwards the
    instance stays active, emits no complete and refuses every scan. *)
Theorem unresolved_link_aborts_scan :
  url_original <$> demo_invalid_links = [Some "http://"; Some "ok.html"] /\
  url_rebased <$> demo_invalid_links =
    [None; Some {| href := "ok.html"; protocol := "http:" |}] /\
  snd demo_invalid_pass = TypeError /\
  events (checker demo_invalid_filtered) =
    [EvHtml demo_invalid_page (robots (fields (checker demo_invalid_scraped)))] /\
  queued (linkQueue (urlChecker (checker demo_invalid_filtered))) = [] /\
  forall ls html url rb au,
    let w := @run demo_packages demo_internals_invalid ls demo_invalid_filtered in
    active (fields (checker w)) = true /\
    completions (checker w) = 0%nat /\
    @scan demo_internals_invalid html url rb au w = (false, w).
Proof.
  repeat (split; [vm_compute; reflexivity|]).
  intros ls html url rb au w.
  assert (Hstuck : stuck demo_invalid_filtered)
    by (repeat split; vm_compute; reflexivity).
  destruct (@run_stuck demo_packages demo_internals_invalid ls _ Hstuck) as [Hstuck' Hc].
  fold w in Hstuck', Hc.
  split; [apply Hstuck'|]. split; [rewrite Hc; vm_compute; reflexivity|].
  apply stuck_refuses, Hstuck'.
Qed.
